(** * Problem details (package [problem]): a shallow embedding and its properties

    The package keeps one struct, [Problem], holding a Go map
    [data : map[string]any] and a wrapped [cause : error].  Go maps are
    references, so the embedding keeps every map of the program in a store
    indexed by locations; a [Problem] holds the location of its map (or nil).
    Methods that mutate are written in store-passing style, and the one way
    the package can fault (calling [Error] on a nil [error]) is an explicit
    [Panic] outcome.

    The standard encoder and decoder ([encoding/json]) are modelled down to
    the bytes, following the behaviour documented for Go's package: sorted
    object keys, HTML-safe string escaping, invalid UTF-8 replaced by U+FFFD,
    numbers decoded to [float64].  Only the conversion between a [float64]
    and its decimal text is left as an interface ([Float64]). *)

From Stdlib Require Import ZArith Ascii String List Lia DecimalString DecimalZ.
From stdpp Require Import gmap strings list fin_maps sorting.

#[local] Set Warnings "-register-all".
#[local] Open Scope string_scope.
#[local] Open Scope Z_scope.

(* ===================================================================== *)
(** * Part I: definitions *)
(* ===================================================================== *)

(** ** Go's [float64] and its decimal text

    [formatFloat] is the text the encoder writes for a float ([None] for NaN
    and the infinities, which the encoder rejects); [parseFloat] is
    [strconv.ParseFloat(s, 64)] on a JSON number literal ([None] when the
    literal is out of range). *)

Class Float64 := {
  float64 : Type;
  formatFloat : float64 → option string;
  parseFloat : string → option float64
}.

(** ** Errors

    An [error] is an interface value: [None] is nil.  The non-nil errors are
    those made by [errors.New] and by [fmt.Errorf] with [%w]; both are
    pointers, so each carries the identity of its allocation and [==]
    compares identities. *)

Inductive err :=
| errorString (id : positive) (s : string)
| wrapError (id : positive) (msg : string) (inner : err).

Abbreviation error := (option err).

#[global] Instance err_eq_dec : EqDecision err.
Proof. solve_decision. Defined.

(** [err.Error()] *)
Definition err_Error (e : err) : string :=
  match e with
  | errorString _ s => s
  | wrapError _ msg _ => msg
  end.

(** [err.Unwrap()], for the errors that have it *)
Definition err_Unwrap (e : err) : error :=
  match e with
  | errorString _ _ => None
  | wrapError _ _ inner => Some inner
  end.



(** ** Bytes and UTF-8

    A Go [string] or [[]byte] is a Rocq [string]: a sequence of 8-bit
    characters. *)

Definition byte_val (c : ascii) : Z := Z.of_N (N_of_ascii c).
Definition byte_of (z : Z) : ascii := ascii_of_N (Z.to_N z).

Definition dquote : ascii := "034"%char.
Definition backslash : ascii := "092"%char.

(** [utf8.RuneError], also [unicode.ReplacementChar] *)
Definition RuneError : Z := 65533.

Definition continuation (b : Z) : bool := (128 <=? b) && (b <=? 191).

(** The table [first] of package [utf8]: for a leading byte, the length of
    the sequence and the range accepted for its second byte. *)
Definition first (p0 : Z) : option (nat * Z * Z) :=
  if (194 <=? p0) && (p0 <=? 223) then Some (2%nat, 128, 191)
  else if p0 =? 224 then Some (3%nat, 160, 191)
  else if (225 <=? p0) && (p0 <=? 236) then Some (3%nat, 128, 191)
  else if p0 =? 237 then Some (3%nat, 128, 159)
  else if (238 <=? p0) && (p0 <=? 239) then Some (3%nat, 128, 191)
  else if p0 =? 240 then Some (4%nat, 144, 191)
  else if (241 <=? p0) && (p0 <=? 243) then Some (4%nat, 128, 191)
  else if p0 =? 244 then Some (4%nat, 128, 143)
  else None.

(** [utf8.DecodeRune]: the first rune of [s] and its width in bytes; an
    invalid or truncated sequence gives [(RuneError, 1)].  The payload bits
    are combined arithmetically ([(p0 & 0x1F) << 6 | (b1 & 0x3F)] is
    [(p0 - 192) * 64 + (b1 - 128)] on the bytes that reach that line). *)
Definition DecodeRune (s : string) : Z * nat :=
  match s with
  | "" => (RuneError, 0%nat)
  | String c0 t0 =>
    let p0 := byte_val c0 in
    if p0 <? 128 then (p0, 1%nat)
    else
      match first p0, t0 with
      | Some (sz, lo, hi), String c1 t1 =>
        let b1 := byte_val c1 in
        if (b1 <? lo) || (hi <? b1) then (RuneError, 1%nat)
        else if (sz <=? 2)%nat then ((p0 - 192) * 64 + (b1 - 128), 2%nat)
        else
          match t1 with
          | String c2 t2 =>
            let b2 := byte_val c2 in
            if negb (continuation b2) then (RuneError, 1%nat)
            else if (sz <=? 3)%nat then
              ((p0 - 224) * 4096 + (b1 - 128) * 64 + (b2 - 128), 3%nat)
            else
              match t2 with
              | String c3 _ =>
                let b3 := byte_val c3 in
                if negb (continuation b3) then (RuneError, 1%nat)
                else ((p0 - 240) * 262144 + (b1 - 128) * 4096
                      + (b2 - 128) * 64 + (b3 - 128), 4%nat)
              | "" => (RuneError, 1%nat)
              end
          | "" => (RuneError, 1%nat)
          end
      | _, _ => (RuneError, 1%nat)
      end
  end.

Definition bytes3 (a b c : Z) : string :=
  String (byte_of a) (String (byte_of b) (String (byte_of c) "")).

(** [utf8.EncodeRune] (as [utf8.AppendRune]): surrogates and values out of
    range are written as U+FFFD. *)
Definition EncodeRune (r : Z) : string :=
  if (0 <=? r) && (r <=? 127) then String (byte_of r) ""
  else if (0 <=? r) && (r <=? 2047) then
    String (byte_of (192 + r / 64)) (String (byte_of (128 + r mod 64)) "")
  else if (r <? 0) || (1114111 <? r) || ((55296 <=? r) && (r <=? 57343)) then
    bytes3 239 191 189
  else if r <=? 65535 then
    bytes3 (224 + r / 4096) (128 + (r / 64) mod 64) (128 + r mod 64)
  else
    String (byte_of (240 + r / 262144))
      (bytes3 (128 + (r / 4096) mod 64) (128 + (r / 64) mod 64) (128 + r mod 64)).

(** [utf16.IsSurrogate] and [utf16.DecodeRune] *)
Definition IsSurrogate (r : Z) : bool := (55296 <=? r) && (r <? 57344).

Definition utf16_DecodeRune (r1 r2 : Z) : Z :=
  if (55296 <=? r1) && (r1 <? 56320) && (56320 <=? r2) && (r2 <? 57344)
  then (r1 - 55296) * 1024 + (r2 - 56320) + 65536
  else RuneError.


(** ** The encoder's strings ([appendString], with HTML escaping as
    [json.Marshal] sets it) *)

Definition hex_digit (n : Z) : ascii :=
  byte_of (if n <? 10 then 48 + n else 87 + n).

(** [htmlSafeSet] *)
Definition htmlSafe (b : Z) : bool :=
  (32 <=? b) && negb ((b =? 34) || (b =? 92) || (b =? 60) || (b =? 62) || (b =? 38)).

(** One byte below 0x80.  (Releases of Go before 1.22 write the backspace
    and the form feed as [\u0008] and [\u000c]; the decoder reads both
    forms.) *)
Definition escape_byte (c : ascii) : string :=
  let b := byte_val c in
  if htmlSafe b then String c ""
  else if (b =? 92) || (b =? 34) then String backslash (String c "")
  else if b =? 8 then "\b"
  else if b =? 12 then "\f"
  else if b =? 10 then "\n"
  else if b =? 13 then "\r"
  else if b =? 9 then "\t"
  else "\u00" ++ String (hex_digit (Z.shiftr b 4)) (String (hex_digit (Z.land b 15)) "").

(** One valid rune of two bytes or more, given with its bytes. *)
Definition escape_rune (r : Z) (raw : string) : string :=
  if (r =? 8232) || (r =? 8233) then "\u202" ++ String (hex_digit (Z.land r 15)) ""
  else raw.

(** The text written for a byte that starts no valid rune. *)
Definition replacement_escape : string :=
  String backslash "ufffd".

Fixpoint quote_body (s : string) : string :=
  match s with
  | "" => ""
  | String c0 t0 =>
    if byte_val c0 <? 128 then escape_byte c0 ++ quote_body t0
    else
      let '(r, size) := DecodeRune s in
      match size, t0 with
      | 2%nat, String c1 t1 =>
          escape_rune r (String c0 (String c1 "")) ++ quote_body t1
      | 3%nat, String c1 (String c2 t2) =>
          escape_rune r (String c0 (String c1 (String c2 ""))) ++ quote_body t2
      | 4%nat, String c1 (String c2 (String c3 t3)) =>
          escape_rune r (String c0 (String c1 (String c2 (String c3 ""))))
            ++ quote_body t3
      | _, _ => replacement_escape ++ quote_body t0
      end
  end.

Definition appendString (s : string) : string :=
  String dquote (quote_body s ++ String dquote "").

(** [strconv.AppendInt(b, n, 10)] *)
Definition format_int (n : Z) : string :=
  NilZero.string_of_int (Z.to_int n).

(** ** The decoder's scanner

    The scanner and the decoder of [encoding/json] are two passes over the
    input; here one recursive descent both checks the grammar and builds the
    syntax tree, and the tree is converted to Go values afterwards. *)

Inductive jvalue :=
| JNull
| JBool (b : bool)
| JNumber (lit : string)
| JString (s : string)
| JArray (l : list jvalue)
| JObject (kvs : list (string * jvalue)).

(** [isSpace] *)
Definition is_space (c : ascii) : bool :=
  let b := byte_val c in (b =? 32) || (b =? 9) || (b =? 13) || (b =? 10).

Fixpoint skip_ws (s : string) : string :=
  match s with
  | String c t => if is_space c then skip_ws t else s
  | "" => ""
  end.

Definition is_digit (c : ascii) : bool :=
  let b := byte_val c in (48 <=? b) && (b <=? 57).

Fixpoint span_digits (s : string) : string * string :=
  match s with
  | String c t =>
      if is_digit c then let '(d, r) := span_digits t in (String c d, r)
      else ("", s)
  | "" => ("", "")
  end.

Definition scan_sign (s : string) : string * string :=
  match s with
  | String c t => if byte_val c =? 45 then ("-", t) else ("", s)
  | "" => ("", "")
  end.

Definition scan_int (s : string) : option (string * string) :=
  match s with
  | String c t =>
      if byte_val c =? 48 then Some ("0", t)
      else if is_digit c then let '(d, r) := span_digits t in Some (String c d, r)
      else None
  | "" => None
  end.

Definition scan_frac (s : string) : option (string * string) :=
  match s with
  | String c t =>
      if byte_val c =? 46 then
        match span_digits t with
        | ("", _) => None
        | (d, r) => Some (String c d, r)
        end
      else Some ("", s)
  | "" => Some ("", "")
  end.

Definition scan_exp (s : string) : option (string * string) :=
  match s with
  | String c t =>
      if (byte_val c =? 101) || (byte_val c =? 69) then
        let '(sign, t') :=
          match t with
          | String g u =>
              if (byte_val g =? 43) || (byte_val g =? 45) then (String g "", u)
              else ("", t)
          | "" => ("", "")
          end in
        match span_digits t' with
        | ("", _) => None
        | (d, r) => Some (String c (sign ++ d), r)
        end
      else Some ("", s)
  | "" => Some ("", "")
  end.

(** A number literal at the head of [s], and what follows it. *)
Definition scan_number (s : string) : option (string * string) :=
  let '(sign, s1) := scan_sign s in
  match scan_int s1 with
  | None => None
  | Some (i, s2) =>
    match scan_frac s2 with
    | None => None
    | Some (f, s3) =>
      match scan_exp s3 with
      | None => None
      | Some (e, s4) => Some (sign ++ i ++ f ++ e, s4)
      end
    end
  end.

Definition hex_val (c : ascii) : option Z :=
  let b := byte_val c in
  if (48 <=? b) && (b <=? 57) then Some (b - 48)
  else if (97 <=? b) && (b <=? 102) then Some (b - 97 + 10)
  else if (65 <=? b) && (b <=? 70) then Some (b - 65 + 10)
  else None.

(** [getu4], on the four characters after [\u] *)
Definition getu4 (h1 h2 h3 h4 : ascii) : option Z :=
  match hex_val h1, hex_val h2, hex_val h3, hex_val h4 with
  | Some a, Some b, Some c, Some d => Some (((a * 16 + b) * 16 + c) * 16 + d)
  | _, _, _, _ => None
  end.

Definition simple_escape (e : ascii) : option ascii :=
  let b := byte_val e in
  if (b =? 34) || (b =? 92) || (b =? 47) then Some e
  else if b =? 98 then Some (byte_of 8)
  else if b =? 102 then Some (byte_of 12)
  else if b =? 110 then Some (byte_of 10)
  else if b =? 114 then Some (byte_of 13)
  else if b =? 116 then Some (byte_of 9)
  else None.

Definition prepend (x : string) (r : option (string * string))
  : option (string * string) :=
  match r with
  | Some (s, rest) => Some (x ++ s, rest)
  | None => None
  end.

(** A string literal after its opening quote: the text it denotes (as
    [unquote] computes it) and what follows the closing quote; [None] when
    the literal is not well formed. *)
Fixpoint parse_string_body (s : string) : option (string * string) :=
  match s with
  | "" => None
  | String c0 t0 =>
    let b0 := byte_val c0 in
    if b0 =? 34 then Some ("", t0)
    else if b0 =? 92 then
      match t0 with
      | "" => None
      | String e t1 =>
        match simple_escape e with
        | Some d => prepend (String d "") (parse_string_body t1)
        | None =>
          if byte_val e =? 117 then
            match t1 with
            | String h1 (String h2 (String h3 (String h4 t5))) =>
              match getu4 h1 h2 h3 h4 with
              | None => None
              | Some rr =>
                if IsSurrogate rr then
                  match t5 with
                  | String x1 (String x2 (String g1 (String g2 (String g3 (String g4 t11))))) =>
                    match (if (byte_val x1 =? 92) && (byte_val x2 =? 117)
                           then getu4 g1 g2 g3 g4 else None) with
                    | Some rr1 =>
                        let dec := utf16_DecodeRune rr rr1 in
                        if dec =? RuneError
                        then prepend (EncodeRune RuneError) (parse_string_body t5)
                        else prepend (EncodeRune dec) (parse_string_body t11)
                    | None => prepend (EncodeRune RuneError) (parse_string_body t5)
                    end
                  | _ => prepend (EncodeRune RuneError) (parse_string_body t5)
                  end
                else prepend (EncodeRune rr) (parse_string_body t5)
              end
            | _ => None
            end
          else None
        end
      end
    else if b0 <? 32 then None
    else if b0 <? 128 then prepend (String c0 "") (parse_string_body t0)
    else
      let '(r, size) := DecodeRune s in
      match size, t0 with
      | 2%nat, String _ t1 => prepend (EncodeRune r) (parse_string_body t1)
      | 3%nat, String _ (String _ t2) => prepend (EncodeRune r) (parse_string_body t2)
      | 4%nat, String _ (String _ (String _ t3)) =>
          prepend (EncodeRune r) (parse_string_body t3)
      | _, _ => prepend (EncodeRune r) (parse_string_body t0)
      end
  end.

Fixpoint strip_prefix (pre s : string) : option string :=
  match pre, s with
  | "", _ => Some s
  | String a pre', String b s' => if Ascii.eqb a b then strip_prefix pre' s' else None
  | _, "" => None
  end.

Inductive parse_result (A : Type) :=
| Parsed (a : A) (rest : string)
| Invalid
| OutOfFuel.
Arguments Parsed {A} a rest.
Arguments Invalid {A}.
Arguments OutOfFuel {A}.

(** [maxNestingDepth] of the scanner *)
Definition maxNestingDepth : Z := 10000.

(** A value at the head of [s] (no leading white space), with [depth]
    containers open around it. *)
Fixpoint parse_value (fuel : nat) (depth : Z) (s : string) {struct fuel}
  : parse_result jvalue :=
  match fuel with
  | O => OutOfFuel
  | S fuel =>
    match s with
    | "" => Invalid
    | String c t =>
      let b := byte_val c in
      if b =? 123 then
        if maxNestingDepth <? depth + 1 then Invalid
        else
          match skip_ws t with
          | String c' t' =>
              if byte_val c' =? 125 then Parsed (JObject []) t'
              else
                match parse_members fuel (depth + 1) (String c' t') with
                | Parsed kvs rest => Parsed (JObject kvs) rest
                | Invalid => Invalid
                | OutOfFuel => OutOfFuel
                end
          | "" => Invalid
          end
      else if b =? 91 then
        if maxNestingDepth <? depth + 1 then Invalid
        else
          match skip_ws t with
          | String c' t' =>
              if byte_val c' =? 93 then Parsed (JArray []) t'
              else
                match parse_elements fuel (depth + 1) (String c' t') with
                | Parsed vs rest => Parsed (JArray vs) rest
                | Invalid => Invalid
                | OutOfFuel => OutOfFuel
                end
          | "" => Invalid
          end
      else if b =? 34 then
        match parse_string_body t with
        | Some (str, rest) => Parsed (JString str) rest
        | None => Invalid
        end
      else if b =? 116 then
        match strip_prefix "rue" t with
        | Some rest => Parsed (JBool true) rest
        | None => Invalid
        end
      else if b =? 102 then
        match strip_prefix "alse" t with
        | Some rest => Parsed (JBool false) rest
        | None => Invalid
        end
      else if b =? 110 then
        match strip_prefix "ull" t with
        | Some rest => Parsed JNull rest
        | None => Invalid
        end
      else
        match scan_number s with
        | Some (lit, rest) => Parsed (JNumber lit) rest
        | None => Invalid
        end
    end
  end
with parse_elements (fuel : nat) (depth : Z) (s : string) {struct fuel}
  : parse_result (list jvalue) :=
  match fuel with
  | O => OutOfFuel
  | S fuel =>
    match parse_value fuel depth s with
    | Parsed v rest =>
      match skip_ws rest with
      | String c t =>
          if byte_val c =? 44 then
            match parse_elements fuel depth (skip_ws t) with
            | Parsed vs rest' => Parsed (v :: vs) rest'
            | Invalid => Invalid
            | OutOfFuel => OutOfFuel
            end
          else if byte_val c =? 93 then Parsed [v] t
          else Invalid
      | "" => Invalid
      end
    | Invalid => Invalid
    | OutOfFuel => OutOfFuel
    end
  end
with parse_members (fuel : nat) (depth : Z) (s : string) {struct fuel}
  : parse_result (list (string * jvalue)) :=
  match fuel with
  | O => OutOfFuel
  | S fuel =>
    match s with
    | String q t =>
      if byte_val q =? 34 then
        match parse_string_body t with
        | Some (k, rest) =>
          match skip_ws rest with
          | String c t1 =>
            if byte_val c =? 58 then
              match parse_value fuel depth (skip_ws t1) with
              | Parsed v rest1 =>
                match skip_ws rest1 with
                | String c2 t2 =>
                    if byte_val c2 =? 44 then
                      match parse_members fuel depth (skip_ws t2) with
                      | Parsed kvs rest2 => Parsed ((k, v) :: kvs) rest2
                      | Invalid => Invalid
                      | OutOfFuel => OutOfFuel
                      end
                    else if byte_val c2 =? 125 then Parsed [(k, v)] t2
                    else Invalid
                | "" => Invalid
                end
              | Invalid => Invalid
              | OutOfFuel => OutOfFuel
              end
            else Invalid
          | "" => Invalid
          end
        | None => Invalid
        end
      else Invalid
    | "" => Invalid
    end
  end.

(** The whole input as one JSON text ([checkValid], then the tree); [None]
    is a [*json.SyntaxError].  Two units of fuel for each byte are enough
    for every input. *)
Definition json_parse (b : string) : option jvalue :=
  match parse_value (S (2 * String.length b)) 0 (skip_ws b) with
  | Parsed v rest =>
      match skip_ws rest with
      | "" => Some v
      | _ => None
      end
  | _ => None
  end.

Section Problem.
Context {F64 : Float64}.

(** ** Values of type [any]

    The dynamic types the package itself stores ([int] by [Status], [string]
    by the other options), the ones the decoder produces (nil, [bool],
    [float64], [string], [[]any], [map[string]any]) and, standing for the
    types the encoder rejects, a channel. *)

Inductive any :=
| Nil
| Bool (b : bool)
| Int (n : Z)
| Float (f : float64)
| Str (s : string)
| Slice (l : list any)
| Map (m : gmap string any)
| Chan (id : positive).

(** ** The store of maps, and the struct *)

Abbreviation loc := positive.
Abbreviation store := (gmap loc (gmap string any)).

Record Problem := mkProblem {
  data : option loc;     (* map[string]any; None is the nil map *)
  cause : error
}.

(** A [*Problem] is [option Problem]: [None] is the nil pointer. *)

(** What running a piece of code leaves: a result and the new store, or a
    run-time panic. *)
Inductive outcome (A : Type) :=
| Done (a : A) (σ : store)
| Panic.
Arguments Done {A} a σ.
Arguments Panic {A}.

(** Reading a map: a nil or unallocated map reads as empty. *)
Definition deref (σ : store) (l : loc) : gmap string any :=
  default ∅ (σ !! l).

Definition fields (σ : store) (d : option loc) : gmap string any :=
  match d with
  | Some l => deref σ l
  | None => ∅
  end.

(** [make(map[string]any)] *)
Definition make_map (σ : store) : loc * store :=
  let l := fresh (dom σ) in (l, <[l := ∅]> σ).

(** [ensureMap(p)] *)
Definition ensureMap (p : Problem) (σ : store) : Problem * store :=
  match data p with
  | Some _ => (p, σ)
  | None =>
      let '(l, σ') := make_map σ in
      ({| data := Some l; cause := cause p |}, σ')
  end.

(** [m[k] = v]; assignment to an entry of a nil map panics. *)
Definition map_assign (d : option loc) (k : string) (v : any) (σ : store)
  : outcome unit :=
  match d with
  | Some l => Done tt (<[l := <[k := v]> (deref σ l)]> σ)
  | None => Panic
  end.

(** ** Options *)

Inductive Option :=
| OptionNil                         (* a nil [Option] *)
| Wrap (e : error)
| WrapPublic (e : error)
| Type_ (uri : string)
| Title (title : string)
| Status (status : Z)
| Detail (detail : string)
| Instance_ (uri : string)
| Ext (key : string) (value : any).

Definition Custom (key : string) (value : any) : Option := Ext key value.

(** The body shared by the field-setting options:
    [ensureMap(p); p.data[k] = v]. *)
Definition set_field (k : string) (v : any) (p : Problem) (σ : store)
  : outcome Problem :=
  let '(p', σ') := ensureMap p σ in
  match map_assign (data p') k v σ' with
  | Done _ σ'' => Done p' σ''
  | Panic => Panic
  end.

(** [opt.apply(p)] *)
Definition apply (opt : Option) (p : Problem) (σ : store) : outcome Problem :=
  match opt with
  | OptionNil => Panic                       (* method call on a nil interface *)
  | Wrap e => Done {| data := data p; cause := e |} σ
  | WrapPublic e =>
      let p1 := {| data := data p; cause := e |} in          (* p.cause = err *)
      match e with
      | None => Panic                        (* err.Error() on a nil error *)
      | Some e' => set_field "cause" (Str (err_Error e')) p1 σ
      end
  | Type_ uri => set_field "type" (Str uri) p σ
  | Title title => set_field "title" (Str title) p σ
  | Status status => set_field "status" (Int status) p σ
  | Detail detail => set_field "detail" (Str detail) p σ
  | Instance_ uri => set_field "instance" (Str uri) p σ
  | Ext key value => set_field key value p σ
  end.

(** The loop [for _, opt := range opts { if opt != nil { opt.apply(p) } }]. *)
Fixpoint apply_all (opts : list Option) (p : Problem) (σ : store)
  : outcome Problem :=
  match opts with
  | [] => Done p σ
  | OptionNil :: rest => apply_all rest p σ
  | opt :: rest =>
      match apply opt p σ with
      | Done p' σ' => apply_all rest p' σ'
      | Panic => Panic
      end
  end.

(** [New(opts...)] *)
Definition New (opts : list Option) (σ : store) : outcome Problem :=
  let '(l, σ') := make_map σ in
  apply_all opts {| data := Some l; cause := None |} σ'.

(** [Of(status)].  The table [http.StatusText] of the standard library is
    a parameter. *)
Definition Of (StatusText : Z → string) (status : Z) (σ : store)
  : outcome Problem :=
  New [Status status; Title (StatusText status)] σ.

(** [p.Append(opts...)] *)
Definition Append (p : option Problem) (opts : list Option) (σ : store)
  : outcome Problem :=
  match p with
  | None => New opts σ
  | Some p =>
      let '(p', σ') := ensureMap p σ in
      apply_all opts p' σ'
  end.

(** [p.With(key, value)] *)
Definition With (p : option Problem) (key : string) (value : any) (σ : store)
  : outcome Problem :=
  Append p [Ext key value] σ.

(** ** Reading *)

(** [maps.Copy(dst, src)]: every entry of [src] is written into [dst]. *)
Definition maps_Copy (dst src : gmap string any) : gmap string any :=
  src ∪ dst.

(** [p.Data()]: the returned map is a new allocation in both branches. *)
Definition Data (p : option Problem) (σ : store) : option loc * store :=
  match p with
  | Some {| data := Some l |} =>
      let '(out, σ') := make_map σ in
      (Some out, <[out := maps_Copy (deref σ' out) (deref σ' l)]> σ')
  | _ =>
      let '(out, σ') := make_map σ in (Some out, σ')
  end.

(** [p.Get(key)] *)
Definition Get (p : option Problem) (key : string) (σ : store) : any * bool :=
  match p with
  | Some {| data := Some l |} =>
      match deref σ l !! key with
      | Some v => (v, true)
      | None => (Nil, false)
      end
  | _ => (Nil, false)
  end.

(** [p.Unwrap()] *)
Definition Unwrap (p : option Problem) : error :=
  match p with
  | None => None
  | Some p => cause p
  end.





(** ** HTTP emission

    An [http.ResponseWriter] is an interface; the embedding records what the
    package does to it (headers set, status lines written, bodies written)
    and takes from the sink what its [Write] answers. *)

Definition MediaType : string := "application/problem+json".
Definition StatusInternalServerError : Z := 500.

Record ResponseWriter := mkResponseWriter {
  header : gmap string (list string);      (* w.Header() *)
  status_lines : list Z;                   (* codes given to w.WriteHeader, oldest first *)
  bodies : list string;                    (* slices given to w.Write, oldest first *)
  write_result : string → Z * error        (* what w.Write returns *)
}.

(** [w.Header().Set(key, value)] *)
Definition Header_Set (key value : string) (w : ResponseWriter) : ResponseWriter :=
  {| header := <[key := [value]]> (header w); status_lines := status_lines w;
     bodies := bodies w; write_result := write_result w |}.

(** [w.WriteHeader(code)] *)
Definition WriteHeader (code : Z) (w : ResponseWriter) : ResponseWriter :=
  {| header := header w; status_lines := status_lines w ++ [code];
     bodies := bodies w; write_result := write_result w |}.

(** [w.Write(b)] *)
Definition Write (b : string) (w : ResponseWriter) : ResponseWriter * (Z * error) :=
  ({| header := header w; status_lines := status_lines w;
      bodies := bodies w ++ [b]; write_result := write_result w |},
   write_result w b).

(** [asStatusCode(v)] *)
Definition asStatusCode (v : any) : Z * bool :=
  match v with
  | Int s => (s, true)
  | _ => (0, false)
  end.

(** [p.WriteHeaderTo(w)] *)
Definition WriteHeaderTo (p : option Problem) (w : ResponseWriter) (σ : store)
  : ResponseWriter :=
  let w := Header_Set "Content-Type" MediaType w in
  match p with
  | Some {| data := Some l |} =>
      match deref σ l !! "status" with
      | Some s =>
          match asStatusCode s with
          | (code, true) => WriteHeader code w
          | _ => w
          end
      | None => w
      end
  | _ => w
  end.

(** ** Encoding ([json.Marshal]) *)

Inductive marshal_error :=
| UnsupportedTypeError
| UnsupportedValueError.

Inductive result (A : Type) :=
| Ok (a : A)
| Err (e : marshal_error).
Arguments Ok {A} a.
Arguments Err {A} e.

(** The encodings of a sequence, or the first error met. *)
Fixpoint collect (l : list (result string)) : result (list string) :=
  match l with
  | [] => Ok []
  | Err e :: _ => Err e
  | Ok s :: rest =>
      match collect rest with
      | Ok ss => Ok (s :: ss)
      | Err e => Err e
      end
  end.

(** A key with the encoding of its value: the member [key:value]. *)
Definition encode_member (kv : string * result string) : result string :=
  match kv.2 with
  | Ok s => Ok (appendString kv.1 ++ ":" ++ s)
  | Err e => Err e
  end.

(** The encoder orders the members of an object by key, byte-wise. *)
Definition key_le {A : Type} (x y : string * A) : Prop :=
  String.leb x.1 y.1 = true.

#[local] Instance key_le_dec {A : Type} (x y : string * A) : Decision (key_le x y).
Proof. unfold key_le. apply _. Defined.

Definition sort_members {A : Type} (l : list (string * A)) : list (string * A) :=
  merge_sort key_le l.

Fixpoint encode (v : any) : result string :=
  match v with
  | Nil => Ok "null"
  | Bool b => Ok (if b then "true" else "false")
  | Int n => Ok (format_int n)
  | Float f =>
      match formatFloat f with
      | Some s => Ok s
      | None => Err UnsupportedValueError
      end
  | Str s => Ok (appendString s)
  | Slice l =>
      match collect (encode <$> l) with
      | Ok ss => Ok ("[" ++ String.concat "," ss ++ "]")
      | Err e => Err e
      end
  | Map m =>
      match collect (encode_member <$> sort_members (map_to_list (encode <$> m))) with
      | Ok ss => Ok ("{" ++ String.concat "," ss ++ "}")
      | Err e => Err e
      end
  | Chan _ => Err UnsupportedTypeError
  end.

(** [p.MarshalJSON()] *)
Definition MarshalJSON (p : option Problem) (σ : store) : result string :=
  match p with
  | None => Ok "null"
  | Some {| data := None |} => Ok "{}"
  | Some {| data := Some l |} => encode (Map (deref σ l))
  end.

(** [json.Marshal(p)] on a [*Problem]: a nil pointer encodes as [null];
    otherwise the encoder calls [MarshalJSON] and compacts what it returns,
    which leaves the encoder's own output and the two literals as they
    are. *)
Definition json_Marshal (p : option Problem) (σ : store) : result string :=
  match p with
  | None => Ok "null"
  | Some _ => MarshalJSON p σ
  end.

(** [p.JSON()]: the error is dropped, and with it the bytes. *)
Definition JSON (p : option Problem) (σ : store) : string :=
  match json_Marshal p σ with
  | Ok b => b
  | Err _ => ""
  end.

(** [p.JSONString()] and [p.Error()] *)
Definition JSONString (p : option Problem) (σ : store) : string := JSON p σ.
Definition Error (p : option Problem) (σ : store) : string := JSONString p σ.

(** [p.write(w, fallback)] *)
Definition write (p : option Problem) (w : ResponseWriter) (fallback : Z)
  (σ : store) : ResponseWriter * (Z * error) :=
  let w := Header_Set "Content-Type" MediaType w in
  let code := fallback in
  let code := if code =? 0 then StatusInternalServerError else code in
  let code :=
    match p with
    | Some p' =>
        match fields σ (data p') !! "status" with
        | Some (Int s) => s
        | _ => code
        end
    | None => code
    end in
  let w := WriteHeader code w in
  Write (JSON p σ) w.

(** [p.WriteTo(w)] *)
Definition WriteTo (p : option Problem) (w : ResponseWriter) (σ : store)
  : ResponseWriter * (Z * error) :=
  write p w StatusInternalServerError σ.

(** ** Decoding ([json.Unmarshal] into a [map[string]any]) *)

Inductive unmarshal_error :=
| NilTargetError (msg : string)           (* errors.New(msg) *)
| SyntaxError                             (* *json.SyntaxError *)
| UnmarshalTypeError (value : string).    (* *json.UnmarshalTypeError and its Value *)

(** [d.saveError]: the first error is kept. *)
Definition saveError (saved new : option unmarshal_error) : option unmarshal_error :=
  match saved with
  | Some _ => saved
  | None => new
  end.

(** [d.valueInterface]: the Go value of a syntax tree, and the error saved
    on the way.  A number out of range saves an error and leaves nil. *)
Fixpoint to_any (j : jvalue) : any * option unmarshal_error :=
  match j with
  | JNull => (Nil, None)
  | JBool b => (Bool b, None)
  | JNumber lit =>
      match parseFloat lit with
      | Some f => (Float f, None)
      | None => (Nil, Some (UnmarshalTypeError ("number " ++ lit)))
      end
  | JString s => (Str s, None)
  | JArray l =>
      let rs := to_any <$> l in
      (Slice (fst <$> rs), foldl saveError None (snd <$> rs))
  | JObject kvs =>
      let rs := (λ kv, match kv with (k, j') => (k, to_any j') end) <$> kvs in
      (Map (foldl (λ m kr, <[kr.1 := kr.2.1]> m) ∅ rs),
       foldl saveError None ((λ kr, kr.2.2) <$> rs))
  end.

(** The members of an object stored one after the other into the map [m]. *)
Definition store_members (kvs : list (string * jvalue)) (m : gmap string any)
  : gmap string any * option unmarshal_error :=
  let rs := (λ kv : string * jvalue, (kv.1, to_any kv.2)) <$> kvs in
  (foldl (λ m kr, <[kr.1 := kr.2.1]> m) m rs,
   foldl saveError None ((λ kr, kr.2.2) <$> rs)).

(** [json.Unmarshal(b, &d)] for [d] of type [map[string]any]: the new value
    of [d], the new store and the error. *)
Definition json_Unmarshal (b : string) (d : option loc) (σ : store)
  : option loc * store * option unmarshal_error :=
  match json_parse b with
  | None => (d, σ, Some SyntaxError)
  | Some JNull => (None, σ, None)
  | Some (JObject kvs) =>
      let '(l, σ1) :=
        match d with
        | Some l => (l, σ)
        | None => make_map σ
        end in
      let '(m, e) := store_members kvs (deref σ1 l) in
      (Some l, <[l := m]> σ1, e)
  | Some (JArray _) => (d, σ, Some (UnmarshalTypeError "array"))
  | Some (JString _) => (d, σ, Some (UnmarshalTypeError "string"))
  | Some (JNumber _) => (d, σ, Some (UnmarshalTypeError "number"))
  | Some (JBool _) => (d, σ, Some (UnmarshalTypeError "bool"))
  end.

(** The loop [for k := range m { delete(m, k) }]. *)
Definition delete_all (m : gmap string any) : gmap string any :=
  map_fold (λ k _ acc, delete k acc) m m.

(** [p.UnmarshalJSON(b)]: the instance afterwards, the store and the
    error. *)
Definition UnmarshalJSON (p : option Problem) (b : string) (σ : store)
  : option Problem * store * option unmarshal_error :=
  match p with
  | None => (None, σ, Some (NilTargetError "problem: UnmarshalJSON on nil *Problem"))
  | Some p =>
      let '(p1, σ1) := ensureMap p σ in
      let σ2 :=
        match data p1 with
        | Some l => <[l := delete_all (deref σ1 l)]> σ1
        | None => σ1
        end in
      let '(d, σ3, e) := json_Unmarshal b (data p1) σ2 in
      (Some {| data := d; cause := cause p1 |}, σ3, e)
  end.

(** ** The words of the specification, for comparison *)

(** The key and value a field-setting option targets. *)
Definition target_of (opt : Option) : option (string * any) :=
  match opt with
  | Type_ uri => Some ("type", Str uri)
  | Title title => Some ("title", Str title)
  | Status status => Some ("status", Int status)
  | Detail detail => Some ("detail", Str detail)
  | Instance_ uri => Some ("instance", Str uri)
  | Ext key value => Some (key, value)
  | _ => None
  end.

Definition field_setting (opt : Option) : Prop := is_Some (target_of opt).

(** The value given by the last option of the sequence that targets [k]. *)
Fixpoint last_write (opts : list Option) (k : string) : option any :=
  match opts with
  | [] => None
  | opt :: rest =>
      match last_write rest k with
      | Some v => Some v
      | None =>
          match target_of opt with
          | Some (k', v) => if decide (k' = k) then Some v else None
          | None => None
          end
      end
  end.

(** The field mapping of an instance as its readers see it: a nil instance
    and a nil map read as empty. *)
Definition fields_of (p : option Problem) (σ : store) : gmap string any :=
  match p with
  | Some p => fields σ (data p)
  | None => ∅
  end.

(** What the map returned by [Data] holds. *)
Definition Data_contents (p : option Problem) (σ : store) : gmap string any :=
  let '(out, σ') := Data p σ in fields σ' out.

(** The map of the instance, if it has one, is a map of the store. *)
Definition allocated (σ : store) (p : option Problem) : Prop :=
  match p with
  | Some {| data := Some l |} => is_Some (σ !! l)
  | _ => True
  end.

(** What decoding [b] into [p] leaves: the entries of the field mapping and
    the error. *)
Definition decoded_fields (p : Problem) (b : string) (σ : store)
  : list (string * any) * option unmarshal_error :=
  let '(q, σ', e) := UnmarshalJSON (Some p) b σ in
  (map_to_list (fields_of q σ'), e).

(** The input is a JSON object. *)
Definition is_json_object (b : string) : Prop :=
  ∃ kvs, json_parse b = Some (JObject kvs).












(** ** Words for the further properties *)

(** What an option writes into the field mapping: the target of a
    field-setting option, and the text of the error for [WrapPublic]. *)
Definition write_of (opt : Option) : option (string * any) :=
  match opt with
  | WrapPublic (Some e) => Some ("cause", Str (err_Error e))
  | _ => target_of opt
  end.

(** The cause an option sets. *)
Definition cause_of (opt : Option) : option error :=
  match opt with
  | Wrap e | WrapPublic e => Some e
  | _ => None
  end.

(** The value written last under [k], and the cause set last. *)
Fixpoint last_written (opts : list Option) (k : string) : option any :=
  match opts with
  | [] => None
  | opt :: rest =>
      match last_written rest k with
      | Some v => Some v
      | None =>
          match write_of opt with
          | Some (k', v) => if decide (k' = k) then Some v else None
          | None => None
          end
      end
  end.

Fixpoint last_cause (opts : list Option) : option error :=
  match opts with
  | [] => None
  | opt :: rest =>
      match last_cause rest with
      | Some e => Some e
      | None => cause_of opt
      end
  end.

(** The one option that faults: [WrapPublic(nil)]. *)
Definition faulty (opt : Option) : bool :=
  match opt with
  | WrapPublic None => true
  | _ => false
  end.

(** The option is not the nil interface. *)
Definition non_nil (opt : Option) : bool :=
  match opt with
  | OptionNil => false
  | _ => true
  end.

(** From [p] in [σ] to [p'] in [σ'] the instance kept its map, or got a
    new one where it had none, and no other map of the store changed. *)
Definition own_map_only (p : Problem) (σ : store) (p' : Problem) (σ' : store)
  : Prop :=
  (data p' = data p ∨ data p = None ∧ ∃ l, data p' = Some l ∧ σ !! l = None) ∧
  ∀ l', data p' ≠ Some l' → σ' !! l' = σ !! l'.


(** The Go value of a decoded instance's field: the decoder makes no [int]. *)
Definition is_int (v : any) : bool :=
  match v with
  | Int _ => true
  | _ => false
  end.



End Problem.

Arguments Done {F64 A} a σ.
Arguments Panic {F64 A}.
Arguments Ok {A} a.
Arguments Err {A} e.

(** ** A [float64] to run the model on

    The floats that are integers: Go writes such a float (below 1e21) as its
    plain decimal digits and reads the digits back as the same float.  This
    instance reads no fraction and no exponent; it serves to evaluate the
    model on concrete inputs and to show the assumptions on [Float64] can be
    met. *)

Definition parse_int (s : string) : option Z :=
  Z.of_int <$> NilZero.int_of_string s.

Definition integral_float64 : Float64 :=
  {| float64 := Z;
     formatFloat := λ z, Some (format_int z);
     parseFloat := parse_int |}.

(** ** Sample instances, over the integral floats *)

Definition one_map : gmap positive (gmap string (@any integral_float64)) :=
  {[ 1%positive := {[ "title" := Str "Not Found" ]} ]}.

Definition at_one : Problem :=
  {| data := Some 1%positive; cause := None |}.

Definition blank : Problem :=
  {| data := None; cause := None |}.


(** A sink that has seen nothing yet and accepts every byte. *)
Definition quiet_sink : ResponseWriter :=
  {| header := ∅; status_lines := []; bodies := [];
     write_result := λ b, (Z.of_nat (String.length b), None) |}.

(** The store [New(Status(404))] builds, read through [at_one]. *)
Definition status_map : gmap positive (gmap string (@any integral_float64)) :=
  {[ 1%positive := {[ "status" := Int 404 ]} ]}.


(** An error made by [fmt.Errorf] around one made by [errors.New]. *)
Definition inner_error : err := errorString 1 "disk full".
Definition outer_error : err := wrapError 2 "save: disk full" inner_error.


(* ===================================================================== *)
(** * Part II: properties *)
(* ===================================================================== *)

Section Properties.
Context {F64 : Float64}.
Abbreviation loc := positive.
Abbreviation store := (gmap loc (gmap string any)).

(** ** The store *)

Lemma make_map_fresh (σ : store) l σ' :
  make_map σ = (l, σ') → σ !! l = None ∧ σ' = <[l := ∅]> σ.
Proof.
  unfold make_map. intros [= <- <-]. split; [|done].
  apply not_elem_of_dom, is_fresh.
Qed.

Lemma deref_insert_eq (σ : store) l m : deref (<[l := m]> σ) l = m.
Proof. unfold deref. by rewrite lookup_insert_eq. Qed.

Lemma deref_insert_ne (σ : store) l l' m :
  l ≠ l' → deref (<[l := m]> σ) l' = deref σ l'.
Proof. intros. unfold deref. by rewrite lookup_insert_ne. Qed.

Lemma deref_unallocated (σ : store) l : σ !! l = None → deref σ l = ∅.
Proof. unfold deref. by intros ->. Qed.

(** [Get] reads the field mapping, whatever the shape of the pointer. *)
Lemma Get_fields (p : Problem) k (σ : store) :
  Get (Some p) k σ = from_option (λ v, (v, true)) (Nil, false) (fields σ (data p) !! k).
Proof. destruct p as [[l|] c]; simpl; [|done]. by destruct (deref σ l !! k). Qed.

Lemma ensureMap_fields (p : Problem) (σ : store) p' σ' :
  ensureMap p σ = (p', σ') →
  cause p' = cause p ∧ is_Some (data p') ∧ fields σ' (data p') = fields σ (data p).
Proof.
  unfold ensureMap. destruct p as [[l|] c]; simpl.
  - intros [= <- <-]. eauto.
  - intros [= <- <-]. simpl. split_and!; [done|eauto|apply deref_insert_eq].
Qed.

(** ** Field-setting options *)

Lemma set_field_spec k v (p : Problem) (σ : store) :
  ∃ p' σ', set_field k v p σ = Done p' σ' ∧ cause p' = cause p ∧
    is_Some (data p') ∧ fields σ' (data p') = <[k := v]> (fields σ (data p)).
Proof.
  unfold set_field. destruct (ensureMap p σ) as [p1 σ1] eqn:E.
  apply ensureMap_fields in E as (Hc & [l Hl] & Hf).
  rewrite Hl in *. simpl in *. eexists _, _. split_and!; [done|done|eauto|].
  rewrite Hl. simpl. by rewrite deref_insert_eq, Hf.
Qed.

Lemma apply_field_setting opt k v (p : Problem) (σ : store) :
  target_of opt = Some (k, v) → apply opt p σ = set_field k v p σ.
Proof. destruct opt; simpl; intros [= <- <-]; done. Qed.

Lemma apply_all_cons_field opt k v opts (p : Problem) (σ : store) :
  target_of opt = Some (k, v) →
  apply_all (opt :: opts) p σ =
    match set_field k v p σ with
    | Done p' σ' => apply_all opts p' σ'
    | Panic => Panic
    end.
Proof.
  intros H. rewrite <- (apply_field_setting _ _ _ _ _ H).
  destruct opt; simpl in *; done.
Qed.

Lemma apply_all_last_write opts (p : Problem) (σ : store) :
  Forall field_setting opts →
  ∃ p' σ', apply_all opts p σ = Done p' σ' ∧ cause p' = cause p ∧
    ∀ k, fields σ' (data p') !! k =
         match last_write opts k with
         | Some v => Some v
         | None => fields σ (data p) !! k
         end.
Proof.
  intros Hall. revert p σ. induction Hall as [|opt opts [[k v] Ht] _ IH]; intros p σ.
  - simpl. eauto.
  - rewrite (apply_all_cons_field _ _ _ _ _ _ Ht).
    destruct (set_field_spec k v p σ) as (p1 & σ1 & -> & Hc & _ & Hf).
    destruct (IH p1 σ1) as (p2 & σ2 & -> & Hc2 & Hk).
    eexists _, _. split_and!; [done|congruence|].
    intros k'. rewrite Hk. simpl. destruct (last_write opts k'); [done|].
    rewrite Ht, Hf. case_decide; subst.
    + by rewrite lookup_insert_eq.
    + by rewrite lookup_insert_ne.
Qed.

(** The example of the specification: [New(Title("a"), Title("b"))] holds
    [title = "b"]. *)
Example New_title_twice :
  ∃ p σ, New [Title "a"; Title "b"] ∅ = Done p σ ∧
         Get (Some p) "title" σ = (Str "b", true).
Proof. eexists _, _. split; [reflexivity|]. vm_compute. reflexivity. Qed.

(** C1: for every sequence of field-setting options, applied by [New] or by
    [Append] on an existing instance, each key ends up holding the value of
    the last option of the sequence that targets it, and a key that no option
    targets reads as it did before (absent, after [New]). *)
Theorem last_write_wins (opts : list Option) (σ : store) :
  Forall field_setting opts →
  (∃ p' σ', New opts σ = Done p' σ' ∧
     ∀ k, Get (Some p') k σ' =
          match last_write opts k with
          | Some v => (v, true)
          | None => (Nil, false)
          end) ∧
  (∀ p : Problem, ∃ p' σ', Append (Some p) opts σ = Done p' σ' ∧
     ∀ k, Get (Some p') k σ' =
          match last_write opts k with
          | Some v => (v, true)
          | None => Get (Some p) k σ
          end).
Proof.
  intros Hall. split.
  - unfold New. destruct (make_map σ) as [l σ0] eqn:E.
    apply make_map_fresh in E as [_ ->].
    destruct (apply_all_last_write opts {| data := Some l; cause := None |}
                (<[l := ∅]> σ) Hall) as (p' & σ' & -> & _ & Hk).
    eexists _, _. split; [done|]. intros k. rewrite Get_fields, Hk. simpl.
    rewrite deref_insert_eq, lookup_empty. by destruct (last_write opts k).
  - intros p. unfold Append. destruct (ensureMap p σ) as [p0 σ0] eqn:E.
    apply ensureMap_fields in E as (_ & _ & Hf).
    destruct (apply_all_last_write opts p0 σ0 Hall) as (p' & σ' & -> & _ & Hk).
    eexists _, _. split; [done|]. intros k. rewrite !Get_fields, Hk, Hf.
    by destruct (last_write opts k).
Qed.

(** ** Causes *)


Lemma Append_one_field k v (p : Problem) (σ : store) opt :
  target_of opt = Some (k, v) →
  ∃ p' σ', Append (Some p) [opt] σ = Done p' σ' ∧ cause p' = cause p ∧
    fields σ' (data p') = <[k := v]> (fields σ (data p)).
Proof.
  intros Ht. unfold Append. destruct (ensureMap p σ) as [p0 σ0] eqn:E.
  apply ensureMap_fields in E as (Hc & _ & Hf).
  rewrite (apply_all_cons_field _ _ _ _ _ _ Ht).
  destruct (set_field_spec k v p0 σ0) as (p1 & σ1 & -> & Hc1 & _ & Hf1).
  eexists _, _. split_and!; [done|congruence|congruence].
Qed.


(** C10: applying [WrapPublic] faults exactly when its error is nil, and
    applying [Wrap] never faults, whatever its error. *)
Theorem wrap_public_needs_an_error (e : error) (p : Problem) (σ : store) :
  (apply (WrapPublic e) p σ = Panic ↔ e = None) ∧
  (New [WrapPublic e] σ = Panic ↔ e = None) ∧
  (Append (Some p) [WrapPublic e] σ = Panic ↔ e = None) ∧
  apply (Wrap e) p σ ≠ Panic ∧
  New [Wrap e] σ ≠ Panic ∧
  Append (Some p) [Wrap e] σ ≠ Panic.
Proof.
  assert (Hpub : ∀ q τ, apply (WrapPublic e) q τ = Panic ↔ e = None).
  { intros q τ. simpl. destruct e as [e'|]; [|done].
    destruct (set_field_spec "cause" (Str (err_Error e'))
                {| data := data q; cause := Some e' |} τ) as (? & ? & -> & _).
    done. }
  assert (Hone : ∀ q τ, apply_all [WrapPublic e] q τ = Panic ↔ e = None).
  { intros q τ. rewrite <- (Hpub q τ). simpl.
    destruct e; [|done]. by destruct (set_field _ _ _ _). }
  split_and!.
  - apply Hpub.
  - unfold New. destruct (make_map σ). apply Hone.
  - unfold Append. destruct (ensureMap p σ). apply Hone.
  - done.
  - unfold New. by destruct (make_map σ).
  - unfold Append. by destruct (ensureMap p σ).
Qed.


(** ** Writing the header *)

(** C8: [WriteHeaderTo] sets the content type to [application/problem+json];
    it writes a status line exactly when the ["status"] field is present and
    holds an [int], and then that integer; it does nothing else to the
    sink. *)
Theorem WriteHeaderTo_status (p : option Problem) (w : ResponseWriter) (σ : store) :
  let w' := WriteHeaderTo p w σ in
  header w' = <["Content-Type" := ["application/problem+json"]]> (header w) ∧
  status_lines w' = (status_lines w ++
    match Get p "status" σ with
    | (Int code, true) => [code]
    | _ => []
    end)%list ∧
  bodies w' = bodies w.
Proof.
  destruct p as [[[l|] c]|]; simpl; try by rewrite app_nil_r.
  destruct (deref σ l !! "status") as [v|]; simpl; [|by rewrite app_nil_r].
  destruct v; simpl; by rewrite ?app_nil_r.
Qed.

(** ** Reading an instance *)

Lemma Get_fields_of (p : option Problem) k (σ : store) :
  Get p k σ = from_option (λ v, (v, true)) (Nil, false) (fields_of p σ !! k).
Proof. destruct p as [p|]; [apply Get_fields|done]. Qed.


(** C5: on a nil instance, and on an instance whose map is nil, [Get] reports
    absent for every key, [Data] returns a new, empty map (never nil),
    [MarshalJSON] gives [null] for the nil instance and the empty object for
    the nil map, and [JSON] and [Error] give the same texts. *)
Theorem reads_of_nil (k : string) (c : error) (σ : store) :
  let nilmap := Some {| data := None; cause := c |} in
  Get None k σ = (Nil, false) ∧ Get nilmap k σ = (Nil, false) ∧
  (∃ l, Data None σ = (Some l, <[l := ∅]> σ) ∧ σ !! l = None) ∧
  (∃ l, Data nilmap σ = (Some l, <[l := ∅]> σ) ∧ σ !! l = None) ∧
  Data_contents None σ = ∅ ∧ Data_contents nilmap σ = ∅ ∧
  MarshalJSON None σ = Ok "null" ∧ MarshalJSON nilmap σ = Ok "{}" ∧
  JSON None σ = "null" ∧ JSON nilmap σ = "{}" ∧
  Error None σ = "null" ∧ Error nilmap σ = "{}".
Proof.
  assert (Hfresh : σ !! fresh (dom σ) = None) by apply not_elem_of_dom, is_fresh.
  split_and!; try done.
  - by eexists.
  - by eexists.
  - unfold Data_contents. simpl. apply deref_insert_eq.
  - unfold Data_contents. simpl. apply deref_insert_eq.
Qed.

(** ** Writing the response *)


(** ** [Data] returns a copy *)

Lemma allocated_ne (p : Problem) l (σ : store) out :
  allocated σ (Some p) → data p = Some l → σ !! out = None → out ≠ l.
Proof.
  destruct p as [d c]. simpl. intros Hal -> Hout <-.
  rewrite Hout in Hal. by destruct Hal.
Qed.



Lemma Data_spec (p : option Problem) (σ : store) :
  allocated σ p →
  Data p σ = (Some (fresh (dom σ)), <[fresh (dom σ) := fields_of p σ]> σ).
Proof.
  intros Hal.
  assert (Hfresh : σ !! fresh (dom σ) = None) by apply not_elem_of_dom, is_fresh.
  destruct p as [[[l|] c]|]; [|done..]. simpl.
  rewrite insert_insert_eq, deref_insert_eq. unfold maps_Copy.
  rewrite (right_id_L ∅ (∪)), deref_insert_ne; [done|].
  by eapply (allocated_ne _ l σ _ Hal).
Qed.



(** ** The scanner consumes its input

    Every parser returns a rest shorter than its input, so the fuel of
    [json_parse], the length of the input plus one, is never exhausted:
    [None] from [json_parse] is a syntax error. *)

Lemma skip_ws_length s : (String.length (skip_ws s) ≤ String.length s)%nat.
Proof. induction s as [|c s IH]; simpl; [lia|]. destruct (is_space c); simpl; lia. Qed.

Lemma prepend_Some a o x r :
  prepend a o = Some (x, r) → ∃ x', o = Some (x', r) ∧ x = a ++ x'.
Proof. destruct o as [[x' r']|]; simpl; [|done]. intros [= <- <-]. eauto. Qed.

Lemma parse_string_body_length s x r :
  parse_string_body s = Some (x, r) → (String.length r < String.length s)%nat.
Proof.
  remember (String.length s) as n eqn:Hn.
  assert (Hle : (String.length s ≤ n)%nat) by lia. clear Hn.
  revert s x r Hle. induction n as [|n IH]; intros s x r Hle.
  - destruct s; simpl in *; [done|lia].
  - destruct s as [|c0 t0]; [done|]. simpl in Hle.
    cbn [parse_string_body]. cbv zeta.
    repeat case_match; subst; try done;
      try (intros [= <- <-]; simpl; lia);
      intros (x' & Hp & _)%prepend_Some; apply IH in Hp;
      simpl in *; lia.
Qed.

Lemma span_digits_length s d r :
  span_digits s = (d, r) → (String.length r ≤ String.length s)%nat.
Proof.
  revert d r. induction s as [|c s IH]; simpl; intros d r.
  - intros [= <- <-]. simpl. lia.
  - destruct (is_digit c).
    + destruct (span_digits s) as [d' r'] eqn:E. intros [= <- <-].
      specialize (IH _ _ eq_refl). lia.
    + intros [= <- <-]. simpl. lia.
Qed.

Lemma scan_number_length s lit r :
  scan_number s = Some (lit, r) → (String.length r < String.length s)%nat.
Proof.
  unfold scan_number, scan_sign, scan_int, scan_frac, scan_exp.
  repeat case_match; subst; try done; intros [= <- <-]; simplify_eq;
    repeat match goal with
           | H : span_digits _ = _ |- _ => apply span_digits_length in H
           end; simpl in *; lia.
Qed.

Lemma strip_prefix_length pre s r :
  strip_prefix pre s = Some r → (String.length r ≤ String.length s)%nat.
Proof.
  revert s. induction pre as [|a pre IH]; intros [|b s]; simpl; try done.
  - intros [= <-]. simpl. lia.
  - intros [= <-]. simpl. lia.
  - destruct (Ascii.eqb a b); [|done]. intros H%IH. lia.
Qed.

Lemma parse_length fuel :
  (∀ depth s v r, parse_value fuel depth s = Parsed v r →
     (String.length r < String.length s)%nat) ∧
  (∀ depth s v r, parse_elements fuel depth s = Parsed v r →
     (String.length r < String.length s)%nat) ∧
  (∀ depth s v r, parse_members fuel depth s = Parsed v r →
     (String.length r < String.length s)%nat).
Proof.
  induction fuel as [|fuel (IHv & IHe & IHm)]; [by split_and!|].
  split_and!; intros depth s v r.
  - cbn [parse_value].
    repeat case_match; subst; try done; intros [= <- <-]; simplify_eq;
      repeat match goal with
             | H : parse_members _ _ _ = Parsed _ _ |- _ => apply IHm in H
             | H : parse_elements _ _ _ = Parsed _ _ |- _ => apply IHe in H
             | H : parse_string_body _ = Some _ |- _ => apply parse_string_body_length in H
             | H : strip_prefix _ _ = Some _ |- _ => apply strip_prefix_length in H
             | H : scan_number _ = Some _ |- _ => apply scan_number_length in H
             | H : skip_ws ?t = _ |- _ =>
                 pose proof (skip_ws_length t); rewrite H in *; clear H
             end; simpl in *; lia.
  - cbn [parse_elements].
    repeat case_match; subst; try done; intros [= <- <-]; simplify_eq;
      repeat match goal with
             | H : parse_value _ _ _ = Parsed _ _ |- _ => apply IHv in H
             | H : parse_elements _ _ _ = Parsed _ _ |- _ => apply IHe in H
             | H : skip_ws ?t = _ |- _ =>
                 pose proof (skip_ws_length t); rewrite H in *; clear H
             | |- context [skip_ws ?t] => pose proof (skip_ws_length t)
             | H : context [skip_ws ?t] |- _ =>
                 lazymatch goal with
                 | _ : (String.length (skip_ws t) ≤ _)%nat |- _ => fail
                 | _ => pose proof (skip_ws_length t)
                 end
             end; simpl in *; lia.
  - cbn [parse_members].
    repeat case_match; subst; try done; intros [= <- <-]; simplify_eq;
      repeat match goal with
             | H : parse_value _ _ _ = Parsed _ _ |- _ => apply IHv in H
             | H : parse_members _ _ _ = Parsed _ _ |- _ => apply IHm in H
             | H : parse_string_body _ = Some _ |- _ => apply parse_string_body_length in H
             | H : skip_ws ?t = _ |- _ =>
                 pose proof (skip_ws_length t); rewrite H in *; clear H
             | H : context [skip_ws ?t] |- _ =>
                 lazymatch goal with
                 | _ : (String.length (skip_ws t) ≤ _)%nat |- _ => fail
                 | _ => pose proof (skip_ws_length t)
                 end
             end; simpl in *; lia.
Qed.

Ltac note_skip_ws :=
  repeat match goal with
         | H : context [skip_ws ?t] |- _ =>
             lazymatch goal with
             | _ : (String.length (skip_ws t) ≤ String.length t)%nat |- _ => fail
             | _ => pose proof (skip_ws_length t)
             end
         end;
  repeat match goal with
         | H : skip_ws ?t = _, H' : (String.length (skip_ws ?t) ≤ _)%nat |- _ =>
             rewrite H in H'
         end.

Lemma parse_fuel fuel :
  (∀ depth s, (2 * String.length s < fuel)%nat →
     parse_value fuel depth s ≠ OutOfFuel) ∧
  (∀ depth s, (2 * String.length s + 1 < fuel)%nat →
     parse_elements fuel depth s ≠ OutOfFuel) ∧
  (∀ depth s, (2 * String.length s + 1 < fuel)%nat →
     parse_members fuel depth s ≠ OutOfFuel).
Proof.
  induction fuel as [|fuel (IHv & IHe & IHm)]; [split_and!; intros; lia|].
  pose proof (parse_length fuel) as (Lv & Le & Lm).
  split_and!; intros depth s Hlen.
  - cbn [parse_value].
    repeat case_match; subst; try done; exfalso;
      repeat match goal with
             | H : skip_ws ?t = _ |- _ =>
                 pose proof (skip_ws_length t); rewrite H in *; clear H
             end;
      match goal with
      | H : parse_members _ _ _ = OutOfFuel |- _ => revert H; apply IHm
      | H : parse_elements _ _ _ = OutOfFuel |- _ => revert H; apply IHe
      end; simpl in *; lia.
  - cbn [parse_elements].
    repeat case_match; subst; try done; exfalso;
      repeat match goal with
             | H : parse_value _ _ _ = Parsed _ _ |- _ => apply Lv in H
             | H : skip_ws ?t = _ |- _ =>
                 pose proof (skip_ws_length t); rewrite H in *; clear H
             end;
      match goal with
      | H : parse_elements _ _ (skip_ws ?t) = OutOfFuel |- _ =>
          pose proof (skip_ws_length t); revert H; apply IHe
      | H : parse_value _ _ _ = OutOfFuel |- _ => revert H; apply IHv
      end; simpl in *; lia.
  - cbn [parse_members].
    repeat case_match; subst; try done; exfalso;
      repeat match goal with
             | H : parse_value _ _ _ = Parsed _ _ |- _ => apply Lv in H
             | H : parse_string_body _ = Some _ |- _ => apply parse_string_body_length in H
             end;
      note_skip_ws;
      match goal with
      | H : parse_members _ _ _ = OutOfFuel |- _ => revert H; apply IHm
      | H : parse_value _ _ _ = OutOfFuel |- _ => revert H; apply IHv
      end; simpl in *; lia.
Qed.

(** [json_parse] gives [None] only for input the grammar rejects. *)
Lemma json_parse_None b :
  json_parse b = None →
  parse_value (S (2 * String.length b)) 0 (skip_ws b) = Invalid ∨
  ∃ v rest, parse_value (S (2 * String.length b)) 0 (skip_ws b) = Parsed v rest ∧
            skip_ws rest ≠ "".
Proof.
  unfold json_parse.
  destruct (parse_value _ _ _) as [v rest| |] eqn:E.
  - destruct (skip_ws rest) eqn:Er; [done|]. intros _. right.
    eexists _, _. split; [done|]. by rewrite Er.
  - by left.
  - exfalso. revert E. apply (parse_fuel (S (2 * String.length b))).
    pose proof (skip_ws_length b). lia.
Qed.

(** ** Decoding into an instance *)

Lemma delete_all_empty (m : gmap string any) : delete_all m = ∅.
Proof.
  unfold delete_all.
  assert (H : ∀ m0 : gmap string any, ∀ k,
            map_fold (λ k _ acc, delete k acc) m0 m !! k =
            match m !! k with Some _ => None | None => m0 !! k end).
  { intros m0.
    apply (map_fold_weak_ind (λ r m', ∀ k, r !! k =
             match m' !! k with Some _ => None | None => m0 !! k end)).
    - intros k. by rewrite lookup_empty.
    - intros i x m' r Hi IH k. destruct (decide (i = k)) as [->|].
      + by rewrite lookup_delete_eq, lookup_insert_eq.
      + by rewrite lookup_delete_ne, lookup_insert_ne, IH. }
  apply map_eq. intros k. rewrite H, lookup_empty. by destruct (m !! k).
Qed.

Lemma UnmarshalJSON_some (p : Problem) (b : string) (σ : store) :
  ∃ q σ' e,
    UnmarshalJSON (Some p) b σ = (Some q, σ', e) ∧ cause q = cause p ∧
    match json_parse b with
    | Some (JObject kvs) =>
        is_Some (data q) ∧ (fields σ' (data q), e) = store_members kvs ∅
    | Some JNull => e = None ∧ data q = None
    | _ => is_Some e ∧ is_Some (data q) ∧ fields σ' (data q) = ∅
    end.
Proof.
  unfold UnmarshalJSON.
  destruct (ensureMap p σ) as [p1 σ1] eqn:E.
  apply ensureMap_fields in E as (Hc & [l Hl] & _). rewrite Hl.
  rewrite delete_all_empty. unfold json_Unmarshal.
  destruct (json_parse b) as [[]|]; simpl.
  - eexists _, _, _. by split_and!.
  - eexists _, _, _. split_and!; [done|done|eauto|eauto|apply deref_insert_eq].
  - eexists _, _, _. split_and!; [done|done|eauto|eauto|apply deref_insert_eq].
  - eexists _, _, _. split_and!; [done|done|eauto|eauto|apply deref_insert_eq].
  - eexists _, _, _. split_and!; [done|done|eauto|eauto|apply deref_insert_eq].
  - rewrite deref_insert_eq. unfold store_members.
    eexists _, _, _. split_and!; [done|done|eauto|].
    simpl. by rewrite deref_insert_eq.
  - eexists _, _, _. split_and!; [done|done|eauto|eauto|apply deref_insert_eq].
Qed.

(** C6: [UnmarshalJSON] on a nil instance returns the nil-target error and
    changes nothing.  On a non-nil instance it clears the fields and decodes
    the input into them: an object is stored member by member into the empty
    map; the literal [null] sets the map to nil and is no error; any other
    input, well formed or not, is an error and leaves an empty map. *)
Theorem UnmarshalJSON_outcomes (b : string) (σ : store) :
  UnmarshalJSON None b σ =
    (None, σ, Some (NilTargetError "problem: UnmarshalJSON on nil *Problem")) ∧
  ∀ p : Problem, ∃ q σ' e,
    UnmarshalJSON (Some p) b σ = (Some q, σ', e) ∧ cause q = cause p ∧
    match json_parse b with
    | Some (JObject kvs) =>
        is_Some (data q) ∧ (fields σ' (data q), e) = store_members kvs ∅
    | Some JNull => e = None ∧ data q = None
    | _ => is_Some e ∧ is_Some (data q) ∧ fields σ' (data q) = ∅
    end.
Proof. split; [done|]. intros p. apply UnmarshalJSON_some. Qed.

End Properties.

(** ** Strings survive the encoder and the scanner *)

#[local] Arguments append !_ _ / : simpl nomatch.

















(** One step of [parse_string_body], for each kind of text the encoder
    writes. *)
Lemma psb_dquote t : parse_string_body (String dquote t) = Some ("", t).
Proof. done. Qed.







#[local] Arguments parse_string_body : simpl never.







(** ** Numbers *)






Lemma skip_ws_head c t : is_space c = false → skip_ws (String c t) = String c t.
Proof. simpl. by intros ->. Qed.

(** ** Values inside slices and maps *)

Section Values.
Context {F64 : Float64}.











End Values.

(** ** Sorting the members of an object *)

#[local] Existing Instance key_le_dec.






(** ** The encoder's text is read back *)

Section RoundTrip.
Context {F64 : Float64}.











End RoundTrip.

Section RoundTripValues.
Context {F64 : Float64}.






End RoundTripValues.

Section RoundTripProblem.
Context {F64 : Float64}.




End RoundTripProblem.

(** ** The integral floats meet the assumption *)




(** ** Options of every kind *)

Section Options.
Context {F64 : Float64}.
Abbreviation loc := positive.
Abbreviation store := (gmap loc (gmap string any)).

Lemma own_map_only_refl (p : Problem) (σ : store) : own_map_only p σ p σ.
Proof. split; [by left|done]. Qed.

Lemma own_map_only_trans (p1 p2 p3 : Problem) (σ1 σ2 σ3 : store) :
  own_map_only p1 σ1 p2 σ2 → own_map_only p2 σ2 p3 σ3 →
  own_map_only p1 σ1 p3 σ3.
Proof.
  intros [H1 F1] [H2 F2]. split.
  - destruct H2 as [H2|(Hn & l & Hl & Hfresh)].
    + rewrite H2. exact H1.
    + destruct H1 as [H1|(Hn1 & l1 & Hl1 & _)]; [|congruence].
      right. split; [congruence|]. exists l. split; [done|].
      rewrite <- Hfresh. symmetry. apply F1. by rewrite Hn.
  - intros l' Hl'. rewrite F2 by done. apply F1.
    destruct H2 as [H2|(Hn & _)]; congruence.
Qed.

Lemma ensureMap_own (p : Problem) (σ : store) p' σ' :
  ensureMap p σ = (p', σ') → own_map_only p σ p' σ' ∧ allocated σ' (Some p')
    ∨ data p' = data p ∧ σ' = σ ∧ is_Some (data p).
Proof.
  unfold ensureMap. destruct p as [[l|] c]; simpl.
  - intros [= <- <-]. right. eauto.
  - intros [= <- <-]. left. simpl. rewrite lookup_insert_eq. split; [|eauto].
    split; simpl.
    + right. split; [done|]. eexists. split; [done|].
      apply not_elem_of_dom, is_fresh.
    + intros l' Hl'. apply lookup_insert_ne. congruence.
Qed.

Lemma ensureMap_own_map (p : Problem) (σ : store) p' σ' :
  ensureMap p σ = (p', σ') → own_map_only p σ p' σ'.
Proof.
  intros [[H _]|(Hd & -> & _)]%ensureMap_own; [done|].
  split; [by left|done].
Qed.

Lemma set_field_own k v (p : Problem) (σ : store) p' σ' :
  set_field k v p σ = Done p' σ' →
  own_map_only p σ p' σ' ∧ allocated σ' (Some p').
Proof.
  unfold set_field. destruct (ensureMap p σ) as [p1 σ1] eqn:E.
  pose proof (ensureMap_own_map _ _ _ _ E) as Hown.
  apply ensureMap_fields in E as (_ & [l Hl] & _). rewrite Hl. simpl.
  intros [= <- <-]. split.
  - eapply own_map_only_trans; [exact Hown|]. split; [by left|].
    intros l' Hl'. apply lookup_insert_ne. congruence.
  - destruct p1 as [d c]. simpl in *. subst d. rewrite lookup_insert_eq. eauto.
Qed.

(** One option that is neither nil nor [WrapPublic(nil)]. *)
Lemma apply_spec opt (p : Problem) (σ : store) :
  non_nil opt = true → faulty opt = false →
  ∃ p' σ', apply opt p σ = Done p' σ' ∧
    cause p' = default (cause p) (cause_of opt) ∧
    fields σ' (data p') =
      match write_of opt with
      | Some (k, v) => <[k := v]> (fields σ (data p))
      | None => fields σ (data p)
      end ∧
    own_map_only p σ p' σ' ∧
    (allocated σ (Some p) → allocated σ' (Some p')).
Proof.
  intros Hn Hf.
  assert (Hset : ∀ k v c,
    ∃ p' σ', set_field k v {| data := data p; cause := c |} σ = Done p' σ' ∧
      cause p' = c ∧ fields σ' (data p') = <[k := v]> (fields σ (data p)) ∧
      own_map_only p σ p' σ' ∧ (allocated σ (Some p) → allocated σ' (Some p'))).
  { intros k v c.
    destruct (set_field_spec k v {| data := data p; cause := c |} σ)
      as (p' & σ' & E & Hc & _ & Hfl).
    exists p', σ'. apply set_field_own in E as HE. destruct HE as [Hown Hal].
    split_and!; done. }
  destruct opt as [|e|[e|]|uri|title|status|detail|uri|key value]; try done;
    cbn [apply write_of target_of cause_of default];
    try (destruct p as [d c]; apply (Hset _ _ c)); [|apply Hset].
  eexists _, _. split_and!; [done|done|done|by split; [left|]|].
  by destruct p.
Qed.

Lemma apply_all_non_nil opts (p : Problem) (σ : store) :
  apply_all (List.filter non_nil opts) p σ = apply_all opts p σ.
Proof.
  revert p σ. induction opts as [|opt opts IH]; intros p σ; [done|].
  destruct opt; cbn [List.filter non_nil apply_all]; try apply IH;
    by destruct (apply _ _ _).
Qed.

Lemma apply_all_cons opt opts (p : Problem) (σ : store) :
  non_nil opt = true →
  apply_all (opt :: opts) p σ =
    match apply opt p σ with
    | Done p' σ' => apply_all opts p' σ'
    | Panic => Panic
    end.
Proof. by destruct opt. Qed.

Lemma apply_all_app o1 o2 (p : Problem) (σ : store) :
  apply_all (o1 ++ o2) p σ =
    match apply_all o1 p σ with
    | Done p1 σ1 => apply_all o2 p1 σ1
    | Panic => Panic
    end.
Proof.
  revert p σ. induction o1 as [|opt o1 IH]; intros p σ; [done|].
  destruct (non_nil opt) eqn:Hn.
  - rewrite <- app_comm_cons, !apply_all_cons by done.
    destruct (apply opt p σ); [apply IH|done].
  - destruct opt; try done. apply IH.
Qed.

Lemma apply_all_spec opts (p : Problem) (σ : store) :
  existsb faulty opts = false →
  ∃ p' σ', apply_all opts p σ = Done p' σ' ∧
    cause p' = default (cause p) (last_cause opts) ∧
    (∀ k, fields σ' (data p') !! k =
          match last_written opts k with
          | Some v => Some v
          | None => fields σ (data p) !! k
          end) ∧
    own_map_only p σ p' σ' ∧
    (allocated σ (Some p) → allocated σ' (Some p')).
Proof.
  revert p σ. induction opts as [|opt opts IH]; intros p σ Hf.
  { eexists _, _. split_and!; [done|done|done|apply own_map_only_refl|done]. }
  cbn [existsb] in Hf. apply orb_false_iff in Hf as [Hf Hfs].
  destruct (non_nil opt) eqn:Hn.
  - rewrite apply_all_cons by done.
    destruct (apply_spec opt p σ Hn Hf) as (p1 & σ1 & -> & Hc & Hfl & Hown & Hal).
    destruct (IH p1 σ1 Hfs) as (p2 & σ2 & -> & Hc2 & Hk & Hown2 & Hal2).
    eexists _, _. split_and!; [done| | |by eapply own_map_only_trans|by auto].
    + rewrite Hc2, Hc. cbn [last_cause]. destruct (last_cause opts); [done|].
      simpl. by destruct (cause_of opt).
    + intros k. rewrite Hk. cbn [last_written].
      destruct (last_written opts k); [done|]. rewrite Hfl.
      destruct (write_of opt) as [[k' v]|]; [|done]. case_decide; subst.
      * by rewrite lookup_insert_eq.
      * by rewrite lookup_insert_ne.
  - destruct opt; try done. cbn [apply_all].
    destruct (IH p σ Hfs) as (p2 & σ2 & -> & Hc2 & Hk & Hown2 & Hal2).
    eexists _, _. split_and!; [done| | |done|done].
    + rewrite Hc2. cbn [last_cause cause_of]. by destruct (last_cause opts).
    + intros k. rewrite Hk. cbn [last_written write_of target_of].
      by destruct (last_written opts k).
Qed.

Lemma apply_all_Panic opts (p : Problem) (σ : store) :
  apply_all opts p σ = Panic ↔ existsb faulty opts = true.
Proof.
  revert p σ. induction opts as [|opt opts IH]; intros p σ; [done|].
  cbn [existsb]. destruct (non_nil opt) eqn:Hn.
  - rewrite apply_all_cons by done. destruct (faulty opt) eqn:Hf.
    + destruct opt as [|e|[e|]|uri|title|status|detail|uri|key value]; done.
    + destruct (apply_spec opt p σ Hn Hf) as (p1 & σ1 & -> & _). apply IH.
  - destruct opt; try done. apply IH.
Qed.

Lemma apply_all_is_Some opts (p : Problem) (σ : store) p' σ' :
  apply_all opts p σ = Done p' σ' → is_Some (data p) → is_Some (data p').
Proof.
  intros HA Hs. destruct (existsb faulty opts) eqn:Hf.
  - apply (proj2 (apply_all_Panic opts p σ)) in Hf. by rewrite Hf in HA.
  - destruct (apply_all_spec opts p σ Hf) as (p2 & σ2 & E & _ & _ & [Hd _] & _).
    rewrite E in HA. injection HA as <- <-.
    destruct Hd as [->|(Hn & _)]; [done|]. rewrite Hn in Hs. by destruct Hs.
Qed.

End Options.

(** ** Building an instance in steps *)

Section Building.
Context {F64 : Float64}.
Abbreviation loc := positive.
Abbreviation store := (gmap loc (gmap string any)).

(** [Append] runs the loop from an instance that has a map: the one it was
    given, or a new one. *)
Lemma Append_start (p : option Problem) (σ : store) :
  ∃ p0 σ0 l,
    (∀ opts, Append p opts σ = apply_all opts p0 σ0) ∧
    cause p0 = Unwrap p ∧ data p0 = Some l ∧
    fields σ0 (data p0) = fields_of p σ ∧
    match p with
    | Some {| data := Some l0 |} => l = l0 ∧ σ0 = σ
    | _ => σ !! l = None ∧ σ0 = <[l := ∅]> σ
    end.
Proof.
  assert (Hfresh : σ !! fresh (dom σ) = None) by apply not_elem_of_dom, is_fresh.
  destruct p as [[[l|] c]|].
  - exists {| data := Some l; cause := c |}, σ, l. by split_and!.
  - eexists {| data := Some _; cause := c |}, _, _.
    split_and!; [done|done|done|apply deref_insert_eq|done|done].
  - eexists {| data := Some _; cause := None |}, _, _.
    split_and!; [done|done|done|apply deref_insert_eq|done|done].
Qed.

Lemma Append_footprint (p : option Problem) opts (σ : store) p' σ' :
  Append p opts σ = Done p' σ' →
  ∃ l, data p' = Some l ∧
    match p with
    | Some {| data := Some l0 |} => l = l0
    | _ => σ !! l = None
    end ∧
    ∀ l', l' ≠ l → σ' !! l' = σ !! l'.
Proof.
  destruct (Append_start p σ) as (p0 & σ0 & l & HA & _ & Hl & _ & Hp).
  rewrite HA. intros E.
  destruct (existsb faulty opts) eqn:Hf.
  { apply (proj2 (apply_all_Panic opts p0 σ0)) in Hf. by rewrite Hf in E. }
  destruct (apply_all_spec opts p0 σ0 Hf) as (p2 & σ2 & E2 & _ & _ & [Hd Hfr] & _).
  rewrite E2 in E. injection E as <- <-.
  destruct Hd as [Hd|(Hn & _)]; [|congruence].
  exists l. split; [congruence|].
  assert (Hrest : ∀ l', l' ≠ l → σ2 !! l' = σ0 !! l').
  { intros l' Hl'. apply Hfr. congruence. }
  destruct p as [[[l0|] c]|].
  - destruct Hp as [-> ->]. done.
  - destruct Hp as [Hnone ->]. split; [done|]. intros l' Hl'.
    rewrite Hrest by done. by apply lookup_insert_ne.
  - destruct Hp as [Hnone ->]. split; [done|]. intros l' Hl'.
    rewrite Hrest by done. by apply lookup_insert_ne.
Qed.

Lemma Append_spec (p : option Problem) opts (σ : store) :
  existsb faulty opts = false →
  ∃ p' σ', Append p opts σ = Done p' σ' ∧
    cause p' = default (Unwrap p) (last_cause opts) ∧
    ∀ k, fields σ' (data p') !! k =
         match last_written opts k with
         | Some v => Some v
         | None => fields_of p σ !! k
         end.
Proof.
  intros Hf.
  destruct (Append_start p σ) as (p0 & σ0 & l & HA & Hc & _ & Hfl & _).
  destruct (apply_all_spec opts p0 σ0 Hf) as (p' & σ' & E & Hc' & Hk & _).
  exists p', σ'. rewrite HA, <- Hc, <- Hfl. by split_and!.
Qed.

(** What [JSON] and [write] give depends on the field mapping alone. *)
Lemma JSON_as_encode (p : Problem) (σ : store) :
  JSON (Some p) σ =
    match encode (Map (fields σ (data p))) with
    | Ok s => s
    | Err _ => ""
    end.
Proof.
  destruct p as [[l|] c]; unfold JSON; simpl; [done|].
  by rewrite fmap_empty, map_to_list_empty.
Qed.

Lemma JSON_same_fields (p q : Problem) (σ τ : store) :
  fields σ (data p) = fields τ (data q) → JSON (Some p) σ = JSON (Some q) τ.
Proof. intros H. by rewrite !JSON_as_encode, H. Qed.

Lemma write_same_fields (p q : Problem) (σ τ : store) w fb :
  fields σ (data p) = fields τ (data q) →
  write (Some p) w fb σ = write (Some q) w fb τ.
Proof.
  intros H. unfold write. by rewrite H, (JSON_same_fields p q σ τ H).
Qed.

(** X1: nil options are skipped: [New] and [Append] give, for a list of
    options, what they give for the list without its nil entries. *)
Theorem nil_options_are_skipped (p : option Problem) opts (σ : store) :
  New (List.filter non_nil opts) σ = New opts σ ∧
  Append p (List.filter non_nil opts) σ = Append p opts σ.
Proof.
  assert (HN : New (List.filter non_nil opts) σ = New opts σ).
  { unfold New. destruct (make_map σ). apply apply_all_non_nil. }
  split; [exact HN|]. destruct p as [p|]; [|exact HN].
  unfold Append. destruct (ensureMap p σ). apply apply_all_non_nil.
Qed.

(** X2: appending options in two calls is appending them in one: [Append]
    with [o1 ++ o2] gives what [Append] with [o2] gives on the result of
    [Append] with [o1], on a nil instance as well, and faults when the first
    call does. *)
Theorem Append_composes (p : option Problem) o1 o2 (σ : store) :
  Append p (o1 ++ o2) σ =
    match Append p o1 σ with
    | Done p1 σ1 => Append (Some p1) o2 σ1
    | Panic => Panic
    end.
Proof.
  destruct (Append_start p σ) as (p0 & σ0 & l & HA & _ & Hl & _).
  rewrite !HA, apply_all_app.
  destruct (apply_all o1 p0 σ0) as [p1 σ1|] eqn:E; [|done].
  apply apply_all_is_Some in E as [l1 Hl1]; [|rewrite Hl; eauto].
  unfold Append, ensureMap. by rewrite Hl1.
Qed.

(** X3: [New] and [Append] fault exactly when one of the options is
    [WrapPublic] of a nil error, wherever it stands in the list. *)
Theorem only_WrapPublic_nil_faults (p : option Problem) opts (σ : store) :
  (New opts σ = Panic ↔ existsb faulty opts = true) ∧
  (Append p opts σ = Panic ↔ existsb faulty opts = true).
Proof.
  split.
  - destruct (Append_start None σ) as (p0 & σ0 & l & HA & _).
    change (New opts σ) with (Append None opts σ). rewrite HA.
    apply apply_all_Panic.
  - destruct (Append_start p σ) as (p0 & σ0 & l & HA & _).
    rewrite HA. apply apply_all_Panic.
Qed.

(** X4: options of every kind take effect in order.  When no option is
    [WrapPublic] of a nil error, [Append] (and [New], which is [Append] on
    the nil instance) returns an instance whose cause is the one set by the
    last [Wrap] or [WrapPublic], or the former cause when there is none, and
    where each key holds what the last option writing it wrote, [WrapPublic]
    writing the text of its error under ["cause"]; other keys read as
    before. *)
Theorem options_apply_in_order (p : option Problem) opts (σ : store) :
  existsb faulty opts = false →
  ∃ p' σ', Append p opts σ = Done p' σ' ∧
    Unwrap (Some p') = default (Unwrap p) (last_cause opts) ∧
    ∀ k, Get (Some p') k σ' =
         match last_written opts k with
         | Some v => (v, true)
         | None => Get p k σ
         end.
Proof.
  intros Hf. destruct (Append_spec p opts σ Hf) as (p' & σ' & E & Hc & Hk).
  exists p', σ'. split_and!; [done|done|].
  intros k. rewrite Get_fields, Get_fields_of, Hk.
  by destruct (last_written opts k).
Qed.

(** X5: [With(key, value)] never faults; afterwards [key] holds [value],
    every other key reads as before and the cause is the former one.  On a
    nil instance it builds a new one.  [Custom] is [Ext]. *)
Theorem With_sets_one_key (p : option Problem) key value (σ : store) :
  Append p [Custom key value] σ = With p key value σ ∧
  ∃ p' σ', With p key value σ = Done p' σ' ∧
    Unwrap (Some p') = Unwrap p ∧
    ∀ k, Get (Some p') k σ' =
         if decide (key = k) then (value, true) else Get p k σ.
Proof.
  split; [done|]. unfold With.
  destruct (Append_spec p [Ext key value] σ eq_refl) as (p' & σ' & E & Hc & Hk).
  exists p', σ'. split_and!; [done|done|].
  intros k. rewrite Get_fields, Get_fields_of, Hk. simpl. by case_decide.
Qed.

(** X6: [Append] works in place.  The instance it returns has a map: the map
    the instance had, or a new one (unknown to the store before) when the
    instance or its map was nil; and no other map of the store is
    changed. *)
Theorem Append_is_in_place (p : option Problem) opts (σ : store) p' σ' :
  Append p opts σ = Done p' σ' →
  ∃ l, data p' = Some l ∧
    match p with
    | Some {| data := Some l0 |} => l = l0
    | _ => σ !! l = None
    end ∧
    ∀ l', l' ≠ l → σ' !! l' = σ !! l'.
Proof. apply Append_footprint. Qed.

(** X7: two instances built by [New] share nothing: the second has another
    map, and whatever is then appended to the second, the first reads as it
    did. *)
Theorem instances_are_independent o1 o2 o3 (σ : store) p1 σ1 p2 σ2 p3 σ3 :
  New o1 σ = Done p1 σ1 →
  New o2 σ1 = Done p2 σ2 →
  Append (Some p2) o3 σ2 = Done p3 σ3 →
  data p1 ≠ data p2 ∧
  (∀ k, Get (Some p1) k σ3 = Get (Some p1) k σ1) ∧
  JSON (Some p1) σ3 = JSON (Some p1) σ1.
Proof.
  intros H1 H2 H3.
  assert (Hal : is_Some (data p1) ∧ allocated σ1 (Some p1)).
  { destruct (Append_start None σ) as (p0 & σ0 & l & HA & _ & Hl & _ & _ & ->).
    change (New o1 σ) with (Append None o1 σ) in H1. rewrite HA in H1.
    destruct (existsb faulty o1) eqn:Hf.
    { apply (proj2 (apply_all_Panic o1 p0 (<[l:=∅]> σ))) in Hf. congruence. }
    destruct (apply_all_spec o1 p0 (<[l:=∅]> σ) Hf)
      as (p' & σ' & E & _ & _ & _ & Hal).
    rewrite E in H1. injection H1 as <- <-. split.
    - eapply apply_all_is_Some; [exact E|]. rewrite Hl. eauto.
    - apply Hal. destruct p0 as [d c]. simpl in *. subst d.
      rewrite lookup_insert_eq. eauto. }
  destruct Hal as [[l1 Hl1] Hal]. destruct p1 as [d1 c1].
  cbn [data] in Hl1. subst d1. cbn [allocated] in Hal.
  apply (Append_footprint None) in H2 as (l2 & Hl2 & Hnew & Hfr2).
  destruct p2 as [d2 c2]. cbn [data] in Hl2. subst d2.
  apply Append_footprint in H3 as (l3 & Hl3 & -> & Hfr3).
  assert (Hne : l1 ≠ l2).
  { intros ->. rewrite Hnew in Hal. by destruct Hal. }
  assert (Hsame : fields σ3 (Some l1) = fields σ1 (Some l1)).
  { simpl. unfold deref. by rewrite Hfr3, Hfr2. }
  split_and!.
  - simpl. congruence.
  - intros k. rewrite !Get_fields. cbn [data]. by rewrite Hsame.
  - apply JSON_same_fields. exact Hsame.
Qed.

End Building.

Section Using.
Context {F64 : Float64}.
Abbreviation loc := positive.
Abbreviation store := (gmap loc (gmap string any)).

(** ** Decoding, whatever the instance held *)

Lemma to_any_no_int (j : jvalue) : is_int (to_any j).1 = false.
Proof. destruct j; simpl; try done. by destruct (parseFloat lit). Qed.

Lemma store_members_no_int kvs (m : gmap string any) :
  map_Forall (λ _ v, is_int v = false) m →
  map_Forall (λ _ v, is_int v = false) (store_members kvs m).1.
Proof.
  unfold store_members. cbn [fst]. revert m.
  induction kvs as [|[k j] kvs IH]; intros m Hm; [done|].
  rewrite fmap_cons. cbn [foldl]. apply IH.
  apply map_Forall_insert_2; [apply to_any_no_int|done].
Qed.

(** The text alone decides what [UnmarshalJSON] leaves in a non-nil
    instance; no field it leaves is an [int]. *)
Lemma UnmarshalJSON_decoded (b : string) :
  ∃ (m : gmap string any) e,
    map_Forall (λ _ v, is_int v = false) m ∧
    ∀ (p : Problem) (σ : store), ∃ q σ',
      UnmarshalJSON (Some p) b σ = (Some q, σ', e) ∧
      cause q = cause p ∧ fields σ' (data q) = m.
Proof.
  assert (Hrun : ∀ (p : Problem) (σ : store), ∃ l σ1,
    UnmarshalJSON (Some p) b σ =
      (let '(d, σ3, e) := json_Unmarshal b (Some l) (<[l := ∅]> σ1) in
       (Some {| data := d; cause := cause p |}, σ3, e))).
  { intros p σ. unfold UnmarshalJSON.
    destruct (ensureMap p σ) as [p1 σ1] eqn:E.
    apply ensureMap_fields in E as (Hc & [l Hl] & _).
    exists l, σ1. by rewrite Hl, delete_all_empty, Hc. }
  assert (Hempty : map_Forall (λ (_ : string) (v : any), is_int v = false) ∅)
    by apply map_Forall_empty.
  unfold json_Unmarshal in Hrun.
  destruct (json_parse b) as [[| | | | |kvs]|];
    [exists ∅, None
    |exists ∅, (Some (UnmarshalTypeError "bool"))
    |exists ∅, (Some (UnmarshalTypeError "number"))
    |exists ∅, (Some (UnmarshalTypeError "string"))
    |exists ∅, (Some (UnmarshalTypeError "array"))
    |exists (store_members kvs ∅).1, (store_members kvs ∅).2
    |exists ∅, (Some SyntaxError)];
    (split; [by (try apply store_members_no_int)|]);
    intros p σ; destruct (Hrun p σ) as (l0 & σ1 & ->);
    eexists _, _; (split; [reflexivity|]); (split; [done|]);
    cbn [data fields]; try apply deref_insert_eq; try done.
  by rewrite !deref_insert_eq.
Qed.

Lemma UnmarshalJSON_footprint (p : Problem) b (σ : store) q σ' e :
  UnmarshalJSON (Some p) b σ = (q, σ', e) →
  ∃ l, (data p = Some l ∨ data p = None ∧ σ !! l = None) ∧
       ∀ l', l' ≠ l → σ' !! l' = σ !! l'.
Proof.
  assert (Hfresh : σ !! fresh (dom σ) = None) by apply not_elem_of_dom, is_fresh.
  unfold UnmarshalJSON, json_Unmarshal.
  destruct p as [[l|] c]; cbn [ensureMap data make_map cause];
    destruct (json_parse b) as [[]|]; cbn [store_members];
    intros [= <- <- <-]; eexists; (split; [by eauto|]); intros l' Hl';
    by rewrite ?lookup_insert_ne.
Qed.

(** X8: the map [Data] returns is a snapshot.  Whatever is appended to the
    instance afterwards, and whatever is decoded into it, the returned map
    holds the fields the instance had when [Data] was called. *)
Theorem Data_is_a_snapshot (p : option Problem) (σ : store) opts b :
  allocated σ p →
  ∃ out σ1, Data p σ = (Some out, σ1) ∧
    deref σ1 out = fields_of p σ ∧
    (∀ p' σ2, Append p opts σ1 = Done p' σ2 → deref σ2 out = fields_of p σ) ∧
    deref (UnmarshalJSON p b σ1).1.2 out = fields_of p σ.
Proof.
  intros Hal.
  assert (Hfresh : σ !! fresh (dom σ) = None) by apply not_elem_of_dom, is_fresh.
  eexists _, _. split; [by apply Data_spec|].
  set (out := fresh (dom σ)) in *. set (σ1 := <[out := fields_of p σ]> σ).
  assert (Hout : deref σ1 out = fields_of p σ) by apply deref_insert_eq.
  assert (Hin : is_Some (σ1 !! out)) by (unfold σ1; rewrite lookup_insert_eq; eauto).
  assert (Hown : ∀ q l, p = Some q → data q = Some l → out ≠ l).
  { intros q l -> Hl. by eapply (allocated_ne q l σ out). }
  split_and!; [done| |].
  - intros p' σ2 HA. apply Append_footprint in HA as (l & _ & Hl & Hfr).
    unfold deref. rewrite Hfr; [exact Hout|].
    destruct p as [[[l0|] c]|].
    + subst l. by eapply Hown.
    + intros ->. rewrite Hl in Hin. by destruct Hin.
    + intros ->. rewrite Hl in Hin. by destruct Hin.
  - destruct p as [q|]; [|done].
    destruct (UnmarshalJSON (Some q) b σ1) as [[q' σ'] e] eqn:E.
    apply UnmarshalJSON_footprint in E as (l & Hl & Hfr). cbn [fst snd].
    unfold deref. rewrite Hfr; [exact Hout|].
    destruct Hl as [Hl|[_ Hl]].
    + by eapply Hown.
    + intros ->. rewrite Hl in Hin. by destruct Hin.
Qed.

(** X9: [Wrap] shows nowhere but in [Unwrap]: after [Wrap(err)], for a nil
    [err] as well, every key reads as before and [JSON], [Error] and what
    [write] does to the sink are what they were. *)
Theorem Wrap_is_invisible (e : error) (p : Problem) (σ : store) :
  ∃ p' σ', Append (Some p) [Wrap e] σ = Done p' σ' ∧
    Unwrap (Some p') = e ∧
    (∀ k, Get (Some p') k σ' = Get (Some p) k σ) ∧
    JSON (Some p') σ' = JSON (Some p) σ ∧
    Error (Some p') σ' = Error (Some p) σ ∧
    ∀ w fallback, write (Some p') w fallback σ' = write (Some p) w fallback σ.
Proof.
  destruct (Append_spec (Some p) [Wrap e] σ eq_refl) as (p' & σ' & E & Hc & Hk).
  assert (Hf : fields σ' (data p') = fields σ (data p)).
  { apply map_eq. intros k. by rewrite Hk. }
  exists p', σ'. split_and!; [done|done| | | |].
  - intros k. by rewrite !Get_fields, Hf.
  - by apply JSON_same_fields.
  - unfold Error, JSONString. by apply JSON_same_fields.
  - intros w fb. by apply write_same_fields.
Qed.

(** X10: [Of(status)], with [http.StatusText] any table, never faults; the
    instance holds the integer under ["status"], the text of the table
    under ["title"] and nothing else, has no cause, and both [WriteTo] and
    [WriteHeaderTo] write [status] as the status line. *)
Theorem Of_status_and_title (StatusText : Z → string) (status : Z) (σ : store) :
  ∃ p σ', Of StatusText status σ = Done p σ' ∧
    Unwrap (Some p) = None ∧
    Get (Some p) "status" σ' = (Int status, true) ∧
    Get (Some p) "title" σ' = (Str (StatusText status), true) ∧
    (∀ k, k ≠ "status" → k ≠ "title" → Get (Some p) k σ' = (Nil, false)) ∧
    ∀ w, status_lines (WriteTo (Some p) w σ').1 = (status_lines w ++ [status])%list ∧
         status_lines (WriteHeaderTo (Some p) w σ') = (status_lines w ++ [status])%list.
Proof.
  unfold Of. change (New ?o σ) with (Append None o σ).
  destruct (Append_spec None [Status status; Title (StatusText status)] σ eq_refl)
    as (p & σ' & E & Hc & Hk).
  assert (Hs : fields σ' (data p) !! "status" = Some (Int status)) by (by rewrite Hk).
  exists p, σ'. split_and!; [done|done| | | |].
  - by rewrite Get_fields, Hs.
  - by rewrite Get_fields, Hk.
  - intros k H1 H2. rewrite Get_fields, Hk. simpl.
    rewrite decide_False by done. by rewrite decide_False by done.
  - intros w. split.
    + unfold WriteTo, write. simpl. by rewrite Hs.
    + destruct p as [[l|] c]; simpl in *; [|done]. by rewrite Hs.
Qed.

(** X11: [WriteHeaderTo] and [write] agree: they set the same header, and
    [WriteHeaderTo] either writes the status line [write] writes or, when
    it writes none, [write] falls back to its argument (500 for zero). *)
Theorem WriteHeaderTo_agrees_with_write (p : option Problem) w fallback (σ : store) :
  let h := WriteHeaderTo p w σ in
  let r := (write p w fallback σ).1 in
  header h = header r ∧ bodies h = bodies w ∧
  (status_lines h = status_lines r ∨
   status_lines h = status_lines w ∧
   status_lines r =
     (status_lines w ++ [if fallback =? 0 then 500 else fallback])%list).
Proof.
  destruct p as [[[l|] c]|]; simpl; split_and!; try done; try by right.
  all: destruct (deref σ l !! "status") as [[]|]; simpl; try done; try by right.
  all: by left.
Qed.

(** X12: [UnmarshalJSON] forgets what the instance held and keeps its
    cause: the fields and the error it leaves are those of the text alone,
    the same for any two non-nil instances in any two stores, and [Unwrap]
    answers as before. *)
Theorem UnmarshalJSON_forgets_the_fields (p p' : Problem) b (σ σ' : store) :
  decoded_fields p b σ = decoded_fields p' b σ' ∧
  Unwrap (UnmarshalJSON (Some p) b σ).1.1 = Unwrap (Some p).
Proof.
  destruct (UnmarshalJSON_decoded b) as (m & e & _ & H).
  destruct (H p σ) as (q & τ & E & Hc & Hm).
  destruct (H p' σ') as (q' & τ' & E' & _ & Hm').
  unfold decoded_fields. rewrite E, E'. cbn [fields_of fst Unwrap].
  by rewrite Hm, Hm', Hc.
Qed.

(** X13: a decoded status is never written.  No field [UnmarshalJSON]
    leaves is an [int], so after decoding any text into an instance
    [WriteHeaderTo] writes no status line and [WriteTo] writes 500. *)
Theorem decoded_status_is_ignored (p : Problem) b (σ : store) w :
  let '(q, σ', _) := UnmarshalJSON (Some p) b σ in
  (∀ k, is_int (Get q k σ').1 = false) ∧
  status_lines (WriteHeaderTo q w σ') = status_lines w ∧
  status_lines (WriteTo q w σ').1 = (status_lines w ++ [500])%list.
Proof.
  destruct (UnmarshalJSON_decoded b) as (m & e & Hint & H).
  destruct (H p σ) as (q & σ' & -> & _ & Hm).
  assert (Hk : ∀ k, is_int (Get (Some q) k σ').1 = false).
  { intros k. rewrite Get_fields, Hm.
    destruct (m !! k) as [v|] eqn:Ek; [|done]. apply (Hint k v Ek). }
  split_and!; [done| |].
  - specialize (Hk "status"). rewrite Get_fields in Hk.
    destruct q as [[l|] c]; simpl in *; [|done].
    by destruct (deref σ' l !! "status") as [[]|].
  - specialize (Hk "status"). rewrite Get_fields in Hk.
    unfold WriteTo, write. simpl.
    by destruct (fields σ' (data q) !! "status") as [[]|].
Qed.


(** X15: options are judged by what they leave.  Two lists of options in
    which every key is last written with the same value, and the cause is
    last set to the same error, build instances that read, unwrap and
    encode alike; so options on different keys may come in any order. *)
Theorem options_with_the_same_last_writes (p : option Problem) o1 o2 (σ : store) :
  existsb faulty o1 = false → existsb faulty o2 = false →
  (∀ k, last_written o1 k = last_written o2 k) →
  last_cause o1 = last_cause o2 →
  ∃ p1 σ1 p2 σ2,
    Append p o1 σ = Done p1 σ1 ∧ Append p o2 σ = Done p2 σ2 ∧
    Unwrap (Some p1) = Unwrap (Some p2) ∧
    (∀ k, Get (Some p1) k σ1 = Get (Some p2) k σ2) ∧
    JSON (Some p1) σ1 = JSON (Some p2) σ2.
Proof.
  intros Hf1 Hf2 Hw Hc.
  destruct (Append_spec p o1 σ Hf1) as (p1 & σ1 & E1 & Hc1 & Hk1).
  destruct (Append_spec p o2 σ Hf2) as (p2 & σ2 & E2 & Hc2 & Hk2).
  assert (Hfl : fields σ1 (data p1) = fields σ2 (data p2)).
  { apply map_eq. intros k. by rewrite Hk1, Hk2, Hw. }
  exists p1, σ1, p2, σ2. split_and!; [done|done| | |].
  - simpl. congruence.
  - intros k. by rewrite !Get_fields, Hfl.
  - by apply JSON_same_fields.
Qed.

End Using.

Section Encoding.
Context {F64 : Float64}.
Abbreviation loc := positive.
Abbreviation store := (gmap loc (gmap string any)).

(** ** When the encoder fails *)








End Encoding.

Section RoundTripInts.
Context {F64 : Float64}.
Abbreviation loc := positive.
Abbreviation store := (gmap loc (gmap string any)).

(** ** The round trip of an [int] *)





End RoundTripInts.

(* ===================================================================== *)
(** * Part III: the theorems at concrete inputs *)
(* ===================================================================== *)

Section Concrete.
#[local] Existing Instance integral_float64.

(** Three options on a new instance and on an instance with a title. *)
Lemma last_write_wins_witness :
  let opts := [Title "a"; Status 404; Title "b"] in
  Forall field_setting opts ∧
  (∃ p' σ', New opts ∅ = Done p' σ' ∧
     Get (Some p') "title" σ' = (Str "b", true) ∧
     Get (Some p') "detail" σ' = (Nil, false)) ∧
  (∃ p' σ', Append (Some at_one) opts one_map = Done p' σ' ∧
     Get (Some p') "status" σ' = (Int 404, true)).
Proof.
  intros opts.
  assert (Hopts : Forall field_setting opts)
    by (repeat constructor; by eexists).
  split; [exact Hopts|].
  destruct (last_write_wins opts ∅ Hopts) as [(p1 & σ1 & HN & Hk) HA].
  destruct (last_write_wins opts one_map Hopts) as [_ HA'].
  destruct (HA' at_one) as (p2 & σ2 & HAp & Hk2).
  split.
  - exists p1, σ1. split; [exact HN|]. split; [apply (Hk "title")|apply (Hk "detail")].
  - exists p2, σ2. split; [exact HAp|]. apply (Hk2 "status").
Defined.



(** The literal [null] is no JSON object, and decoding it into an instance
    that holds a field returns no error; the map of the instance is then
    nil. *)
Lemma UnmarshalJSON_null_is_no_error :
  ¬ is_json_object "null" ∧
  UnmarshalJSON (Some at_one) "null" one_map =
    (Some {| data := None; cause := None |}, <[1%positive := ∅]> one_map, None).
Proof.
  split.
  - intros [kvs H]. vm_compute in H. discriminate.
  - unfold UnmarshalJSON. simpl. rewrite delete_all_empty. reflexivity.
Qed.

(** The field mapping [New(Status(404))] builds. *)
Lemma New_status_fields :
  match New [Status 404] ∅ with
  | Done p σ => map_to_list (fields σ (data p))
  | Panic => []
  end = [("status", Int 404)].
Proof. vm_compute. reflexivity. Qed.


Lemma status_map_decoded :
  decoded_fields blank (JSON (Some at_one) status_map) status_map
    = ([("status", @Float integral_float64 404)], None).
Proof. vm_compute. reflexivity. Qed.


(** After that round trip [WriteTo] answers 500: the decoded ["status"] is
    no [int]. *)
Lemma decoded_status_is_not_written :
  status_lines (WriteTo (Some at_one) quiet_sink status_map).1 = [404] ∧
  ∀ q σ',
    UnmarshalJSON (Some blank) (JSON (Some at_one) status_map) status_map
      = (Some q, σ', None) →
    status_lines (WriteTo (Some q) quiet_sink σ').1 = [500].
Proof.
  split; [vm_compute; reflexivity|]. intros q σ' HU.
  pose proof status_map_decoded as H. unfold decoded_fields in H.
  rewrite HU in H. injection H as H. simpl in H.
  assert (Hq : fields σ' (data q) !! "status" = Some (@Float integral_float64 404)).
  { apply elem_of_map_to_list. rewrite H. by left. }
  unfold WriteTo, write. simpl. by rewrite Hq.
Qed.

(** The examples of the specification: [WriteTo] on [New(Status(201))]
    writes 201 and the body [JSON()]; with no ["status"] it writes 500. *)
Example WriteTo_201 :
  match New [Status 201] ∅ with
  | Done p σ =>
      let w := (WriteTo (Some p) quiet_sink σ).1 in
      (status_lines w, bodies w, JSON (Some p) σ)
  | Panic => ([], [], "")
  end = ([201], [String "{" (String dquote ("status" ++ String dquote ":201}"))],
         String "{" (String dquote ("status" ++ String dquote ":201}"))).
Proof. vm_compute. reflexivity. Qed.

Example WriteTo_no_status :
  status_lines (WriteTo (Some at_one) quiet_sink one_map).1 = [500] ∧
  status_lines (WriteTo None quiet_sink one_map).1 = [500].
Proof. split; vm_compute; reflexivity. Qed.


(** Options of every kind, a nil one among them, on an instance with a
    title. *)
Lemma options_apply_in_order_witness :
  let opts := [Wrap (Some inner_error); Status 404; OptionNil;
               WrapPublic (Some outer_error); Status 410] in
  existsb faulty opts = false ∧
  ∃ p' σ', Append (Some at_one) opts one_map = Done p' σ' ∧
    Unwrap (Some p') = Some outer_error ∧
    Get (Some p') "status" σ' = (Int 410, true) ∧
    Get (Some p') "cause" σ' = (Str "save: disk full", true) ∧
    Get (Some p') "title" σ' = (Str "Not Found", true).
Proof.
  intros opts. split; [reflexivity|].
  destruct (options_apply_in_order (Some at_one) opts one_map eq_refl)
    as (p' & σ' & E & Hc & Hk).
  exists p', σ'. split; [exact E|]. split; [exact Hc|].
  split; [apply (Hk "status")|]. split; [apply (Hk "cause")|apply (Hk "title")].
Defined.

(** Appending to an instance that has its map at location 1. *)
Lemma Append_is_in_place_witness :
  ∃ p' σ', Append (Some at_one) [Title "Gone"] one_map = Done p' σ' ∧
    ∃ l, data p' = Some l ∧ l = 1%positive ∧
      ∀ l', l' ≠ l → σ' !! l' = one_map !! l'.
Proof.
  eexists _, _. split; [reflexivity|].
  exact (Append_is_in_place (Some at_one) [Title "Gone"] one_map _ _ eq_refl).
Defined.

(** Two instances built one after the other, the second then extended. *)
Lemma instances_are_independent_witness :
  ∃ p1 σ1 p2 σ2 p3 σ3,
    New [Title "a"] one_map = Done p1 σ1 ∧
    New [Status 404] σ1 = Done p2 σ2 ∧
    Append (Some p2) [Title "b"; Detail "d"] σ2 = Done p3 σ3 ∧
    data p1 ≠ data p2 ∧
    (∀ k, Get (Some p1) k σ3 = Get (Some p1) k σ1) ∧
    JSON (Some p1) σ3 = JSON (Some p1) σ1.
Proof.
  eexists _, _, _, _, _, _.
  split; [reflexivity|]. split; [reflexivity|]. split; [reflexivity|].
  exact (instances_are_independent [Title "a"] [Status 404] [Title "b"; Detail "d"]
           one_map _ _ _ _ _ _ eq_refl eq_refl eq_refl).
Defined.

(** A snapshot of an instance with a title, which is then given another
    title and an empty object to decode. *)
Lemma Data_is_a_snapshot_witness :
  allocated one_map (Some at_one) ∧
  ∃ out σ1, Data (Some at_one) one_map = (Some out, σ1) ∧
    deref σ1 out = fields_of (Some at_one) one_map ∧
    (∀ p' σ2, Append (Some at_one) [Title "Gone"] σ1 = Done p' σ2 →
              deref σ2 out = fields_of (Some at_one) one_map) ∧
    deref (UnmarshalJSON (Some at_one) "{}" σ1).1.2 out
      = fields_of (Some at_one) one_map.
Proof.
  assert (Hal : allocated one_map (Some at_one)) by (simpl; by eexists).
  split; [exact Hal|].
  exact (Data_is_a_snapshot (Some at_one) one_map [Title "Gone"] "{}" Hal).
Defined.


(** A title and a status, in both orders. *)
Lemma options_with_the_same_last_writes_witness :
  let o1 := [Title "a"; Status 404] in
  let o2 := [Status 404; Title "a"] in
  existsb faulty o1 = false ∧ existsb faulty o2 = false ∧
  (∀ k, last_written o1 k = last_written o2 k) ∧
  last_cause o1 = last_cause o2 ∧
  ∃ p1 σ1 p2 σ2,
    Append None o1 one_map = Done p1 σ1 ∧ Append None o2 one_map = Done p2 σ2 ∧
    Unwrap (Some p1) = Unwrap (Some p2) ∧
    (∀ k, Get (Some p1) k σ1 = Get (Some p2) k σ2) ∧
    JSON (Some p1) σ1 = JSON (Some p2) σ2.
Proof.
  intros o1 o2.
  assert (Hw : ∀ k, last_written o1 k = last_written o2 k).
  { intros k. simpl. repeat case_decide; congruence. }
  split; [reflexivity|]. split; [reflexivity|]. split; [exact Hw|].
  split; [reflexivity|].
  exact (options_with_the_same_last_writes None o1 o2 one_map
           eq_refl eq_refl Hw eq_refl).
Defined.



End Concrete.
